(** * WhatsApp gateway: delivery queue, session service and send route

    A shallow embedding of
      - [utils/messageQueue.js]   (class [MessageQueue]),
      - [utils/errorHandler.js]   ([AppError], [errorHandler]),
      - [services/whatsappService.js] (class [WhatsAppService]),
      - [routes/whatsapp.js]      (the handlers of the routes),
      - [server.js]               (the error of the 404 handler),
    followed by the properties of these definitions.

    JavaScript objects that are shared by reference (queue items, promises,
    client objects) live in explicit stores and are named by their index.
    An [async] function is cut at its [await]s: the part that runs
    synchronously is a function on the state, and every resumption is an
    event of a step function.  A promise is settled at most once: settling
    a promise that is no longer pending does nothing. *)

From stdpp Require Import base list strings pretty sorting.
From Stdlib Require Import ZArith Lia Ascii.

#[local] Open Scope Z_scope.

(** ** Errors and promises *)

(** [class AppError extends Error]: the fields the gateway reads. *)
Record AppError := mkAppError { message : string; statusCode : Z }.

(** [this.status = `${statusCode}`.startsWith('4') ? 'fail' : 'error'] *)
Definition status (e : AppError) : string :=
  match pretty (statusCode e) with
  | String "4"%char _ => "fail"
  | _ => "error"
  end.

(** The state of a promise whose fulfilment value has type [V]. *)
Inductive Promise (V : Type) :=
  | Pending
  | Fulfilled (v : V)
  | Rejected (e : AppError).
Arguments Pending {V}.
Arguments Fulfilled {V} v.
Arguments Rejected {V} e.

(** [resolve(v)] and [reject(e)] of the promise constructor. *)
Definition resolve {V} (v : V) (p : Promise V) : Promise V :=
  match p with Pending => Fulfilled v | _ => p end.

Definition reject {V} (e : AppError) (p : Promise V) : Promise V :=
  match p with Pending => Rejected e | _ => p end.

Definition settled {V} (p : Promise V) : bool :=
  match p with Pending => false | _ => true end.

(** Scalar JavaScript values, as they arrive in a JSON body or from the
    environment; [JUndefined] is an absent field. *)
Inductive JsVal :=
  | JUndefined
  | JNull
  | JBool (b : bool)
  | JNum (n : Z)
  | JStr (s : string).

(** Truthiness, as tested by [!v] and [v || w]. *)
Definition truthy (v : JsVal) : bool :=
  match v with
  | JUndefined | JNull => false
  | JBool b => b
  | JNum n => negb (n =? 0)
  | JStr s => negb (bool_decide (s = ""))
  end.

(** [v || w] *)
Definition js_or (v w : JsVal) : JsVal := if truthy v then v else w.

(** [`${v}`] *)
Definition js_string (v : JsVal) : string :=
  match v with
  | JUndefined => "undefined"
  | JNull => "null"
  | JBool true => "true"
  | JBool false => "false"
  | JNum n => pretty n
  | JStr s => s
  end.

(** ** The delivery queue ([utils/messageQueue.js]) *)

Module Queue.

(** [config.queue].  The numbers are the values the comparisons and
    [splice] see after JavaScript's numeric conversion of the environment
    strings; [concurrency] is [splice]'s delete count, which is clamped at
    zero.  The two delays are only waited for: the end of a wait is an
    event below. *)
Record Config := mkConfig {
  messageDelay : Z;
  maxRetries : Z;
  retryDelay : Z;
  concurrency : nat
}.

(** [{ to, message, priority }] as built by [sendMessage]. *)
Record Options := mkOptions { to : JsVal; message : string; priority : JsVal }.

(** What [sendFunction] fulfils with: [{ success, messageId, timestamp }]. *)
Record SendResult := mkSendResult {
  success : bool; messageId : string; timestamp : Z
}.

(** An outcome of one call of [msg.sendFunction(msg.options)]: its value,
    or the [message] of the error it threw. *)
Inductive SendOutcome :=
  | SendOk (v : SendResult)
  | SendErr (reason : string).

(** A queue item.  [resolve] and [reject] of the item are the two
    capabilities of the caller's promise, kept next to the item in its
    [Cell]; [sendFunction] is the environment (see [SendOutcome]). *)
Record Msg := mkMsg {
  id : string;
  options : Options;
  attempts : Z;
  addedAt : Z
}.

Record Cell := mkCell { obj : Msg; caller : Promise SendResult }.

(** The promise returned by one call of [processMessage], together with
    where that call is suspended. *)
Inductive Task :=
  | TSending                       (* at [await msg.sendFunction(...)] *)
  | TRetryDelay (reason : string)  (* at the [retryDelay] wait *)
  | TFulfilled (v : SendResult)
  | TRejected (e : AppError).

(** Where the single running call of [process] is suspended.  The batch
    keeps, for every [batch[i]], the reference of the item and the
    promise of [results[i]]. *)
Inductive Loop :=
  | Idle
  | AwaitBatch (batch : list (nat * Task))  (* at [Promise.allSettled] *)
  | AwaitDelay.                             (* at the [messageDelay] wait *)

Record State := mkState {
  queue : list nat;          (* [this.queue]: references into [heap] *)
  processing : bool;
  messagesSent : Z;
  messagesQueued : Z;
  messagesFailed : Z;
  heap : list Cell;          (* every item object ever created *)
  loop : Loop
}.

(** [constructor()] *)
Definition init : State :=
  mkState [] false 0 0 0 [] Idle.

Definition set_queue (q : list nat) (s : State) : State :=
  mkState q (processing s) (messagesSent s) (messagesQueued s)
          (messagesFailed s) (heap s) (loop s).

Definition set_processing (b : bool) (s : State) : State :=
  mkState (queue s) b (messagesSent s) (messagesQueued s)
          (messagesFailed s) (heap s) (loop s).

Definition set_heap (h : list Cell) (s : State) : State :=
  mkState (queue s) (processing s) (messagesSent s) (messagesQueued s)
          (messagesFailed s) h (loop s).

Definition set_loop (l : Loop) (s : State) : State :=
  mkState (queue s) (processing s) (messagesSent s) (messagesQueued s)
          (messagesFailed s) (heap s) l.

(** [msg.attempts++] *)
Definition bump (c : Cell) : Cell :=
  mkCell (mkMsg (id (obj c)) (options (obj c)) (attempts (obj c) + 1)
                (addedAt (obj c)))
         (caller c).

(** [processMessage(msg)] up to its first [await]: the item behind
    reference [r] counts the attempt, and its send function is called. *)
Definition processMessage (h : list Cell) (r : nat) : list Cell :=
  match h !! r with
  | Some c => <[r := bump c]> h
  | None => h
  end.

(** The synchronous part of [process()].

    [None] stands for the run that never reaches an [await]: with an empty
    batch (a delete count of zero) the [finally] block finds the backlog
    still non-empty and calls [process()] again, without end. *)
Definition process (cfg : Config) (s : State) : option State :=
  if processing s || bool_decide (queue s = []) then Some s
  else
    let batch := take (concurrency cfg) (queue s) in
    let s1 := set_queue (drop (concurrency cfg) (queue s))
                        (set_processing true s) in
    if bool_decide (batch = []) then None
    else
      (* [batch.map(msg => this.processMessage(msg))]: every call runs up
         to its first [await], that is [msg.attempts++] and the call of
         the send function. *)
      Some (set_loop (AwaitBatch ((λ r, (r, TSending)) <$> batch))
                     (set_heap (foldl processMessage (heap s1) batch) s1)).

(** The part of [add] before [process] is looked at: count the message,
    create the item with [attempts: 0] and a pending promise, and push it
    at the tail.  [now] is [Date.now()], [rnd] the random suffix. *)
Definition enqueue (o : Options) (now : Z) (rnd : string) (s : State)
  : nat * State :=
  let r := length (heap s) in
  let m := mkMsg (pretty now +:+ rnd) o 0 now in
  (r, mkState (queue s ++ [r]) (processing s) (messagesSent s)
              (messagesQueued s + 1) (messagesFailed s)
              (heap s ++ [mkCell m Pending]) (loop s)).

(** [add(sendFunction, options)]: returns the reference of the new item,
    whose [caller] promise is the promise handed to the caller. *)
Definition add (cfg : Config) (o : Options) (now : Z) (rnd : string)
  (s : State) : option (nat * State) :=
  let '(r, s1) := enqueue o now rnd s in
  if processing s1 then Some (r, s1)
  else s2 ← process cfg s1; Some (r, s2).

(** The two rejections of [processMessage]. *)
Definition retry_error (cfg : Config) (m : Msg) : AppError :=
  mkAppError ("Message will be retried (" +:+ pretty (attempts m) +:+ "/"
              +:+ pretty (maxRetries cfg) +:+ ")") 500.

Definition final_error (m : Msg) (reason : string) : AppError :=
  mkAppError ("Failed to send message after " +:+ pretty (attempts m)
              +:+ " attempts: " +:+ reason) 500.

(** [processMessage] resumes after the send function of [batch[i]]
    settled with [o]. *)
Definition processMessage_sent (cfg : Config) (i : nat) (o : SendOutcome) (s : State)
  : option State :=
  match loop s with
  | AwaitBatch b =>
      match b !! i with
      | Some (r, TSending) =>
          match o with
          | SendOk v => Some (set_loop (AwaitBatch (<[i := (r, TFulfilled v)]> b)) s)
          | SendErr reason =>
              c ← heap s !! r;
              if bool_decide (attempts (obj c) < maxRetries cfg)
              then Some (set_loop (AwaitBatch (<[i := (r, TRetryDelay reason)]> b)) s)
              else Some (set_loop
                           (AwaitBatch (<[i := (r, TRejected (final_error (obj c) reason))]> b))
                           s)
          end
      | _ => None
      end
  | _ => None
  end.

(** [processMessage] resumes after the [retryDelay] wait of [batch[i]]:
    [this.queue.unshift(msg)], then the rejection. *)
Definition processMessage_retry (cfg : Config) (i : nat) (s : State) : option State :=
  match loop s with
  | AwaitBatch b =>
      match b !! i with
      | Some (r, TRetryDelay _) =>
          c ← heap s !! r;
          Some (set_loop
                  (AwaitBatch (<[i := (r, TRejected (retry_error cfg (obj c)))]> b))
                  (set_queue (r :: queue s) s))
      | _ => None
      end
  | _ => None
  end.

Definition task_settled (t : Task) : bool :=
  match t with TFulfilled _ | TRejected _ => true | _ => false end.

Definition settle_caller (f : Promise SendResult → Promise SendResult)
  (r : nat) (h : list Cell) : list Cell :=
  match h !! r with
  | Some c => <[r := mkCell (obj c) (f (caller c))]> h
  | None => h
  end.

(** One round of [results.forEach((result, i) => ...)]. *)
Definition settle_one (s : State) (e : nat * Task) : State :=
  match e with
  | (r, TFulfilled v) =>
      mkState (queue s) (processing s) (messagesSent s + 1) (messagesQueued s)
              (messagesFailed s) (settle_caller (resolve v) r (heap s)) (loop s)
  | (r, TRejected err) =>
      mkState (queue s) (processing s) (messagesSent s) (messagesQueued s)
              (messagesFailed s + 1) (settle_caller (reject err) r (heap s)) (loop s)
  | _ => s
  end.

(** [process] resumes after [Promise.allSettled]: the [forEach], then the
    [messageDelay] wait. *)
Definition process_settled (s : State) : option State :=
  match loop s with
  | AwaitBatch b =>
      if forallb (λ e, task_settled e.2) b
      then Some (set_loop AwaitDelay (foldl settle_one s b))
      else None
  | _ => None
  end.

(** [process] resumes after the [messageDelay] wait: the [finally] block. *)
Definition process_finally (cfg : Config) (s : State) : option State :=
  match loop s with
  | AwaitDelay =>
      let s1 := set_loop Idle (set_processing false s) in
      if bool_decide (queue s1 = []) then Some s1 else process cfg s1
  | _ => None
  end.

(** [getStats()] *)
Record Stats := mkStats {
  queued : Z; sent : Z; failed : Z; total : Z; stat_processing : bool
}.

Definition getStats (s : State) : Stats :=
  mkStats (Z.of_nat (length (queue s))) (messagesSent s) (messagesFailed s)
          (messagesQueued s) (processing s).

(** [clear()] *)
Definition clear (s : State) : Z * State :=
  (Z.of_nat (length (queue s)), set_queue [] s).

(** Everything that can happen to the queue object. *)
Inductive Event :=
  | EvAdd (o : Options) (now : Z) (rnd : string)
  | EvSendDone (i : nat) (o : SendOutcome)
  | EvRetryElapsed (i : nat)
  | EvBatchSettled
  | EvDelayElapsed
  | EvClear.

Definition step (cfg : Config) (e : Event) (s : State) : option State :=
  match e with
  | EvAdd o now rnd => snd <$> add cfg o now rnd s
  | EvSendDone i o => processMessage_sent cfg i o s
  | EvRetryElapsed i => processMessage_retry cfg i s
  | EvBatchSettled => process_settled s
  | EvDelayElapsed => process_finally cfg s
  | EvClear => Some (clear s).2
  end.

Fixpoint run (cfg : Config) (es : list Event) (s : State) : option State :=
  match es with
  | [] => Some s
  | e :: es' => s' ← step cfg e s; run cfg es' s'
  end.

(** Reads through the store. *)
Definition attempts_of (s : State) (r : nat) : option Z :=
  (λ c, attempts (obj c)) <$> heap s !! r.

Definition caller_of (s : State) (r : nat) : option (Promise SendResult) :=
  caller <$> heap s !! r.

End Queue.

(** ** The session service ([services/whatsappService.js]) *)

Module Service.

(** The three fields of [WhatsAppService].  A client object and an
    initialization promise are named by the order of their creation. *)
Record Fields := mkFields {
  client : option nat;
  isInitialized : bool;
  initializationPromise : option nat
}.

(** Where one call of [_initialize] is suspended.  [AwaitReady c d] holds
    the client the two [once] listeners were put on and the instant at
    which the [setTimeout] of the wait expires. *)
Inductive Stage :=
  | AwaitMongo                          (* at [await mongoose.connect] *)
  | AwaitClientInit                     (* at [await this.client.initialize()] *)
  | AwaitReady (c : nat) (deadline : Z) (* at the wait for [ready] *)
  | Finished.

(** One call of [_initialize]: its stage and the promise it returned,
    which fulfils with the client. *)
Record Init := mkInit { stage : Stage; result : Promise nat }.

(** Calls the service makes on its collaborators. *)
Inductive Effect :=
  | MongoConnect
  | NewClient (c : nat)
  | ClientInitialize (c : nat)
  | ClientDestroy (c : nat)
  | ClientLogout (c : nat).

Record World := mkWorld {
  fields : Fields;
  mongoReady : bool;     (* [mongoose.connection.readyState] is truthy *)
  inits : list Init;     (* every call of [_initialize], by promise *)
  clients : nat;         (* number of [new Client(...)] so far *)
  now : Z;               (* the clock, in milliseconds *)
  effects : list Effect  (* most recent first *)
}.

(** [constructor()], in a process that has not connected to MongoDB. *)
Definition init : World :=
  mkWorld (mkFields None false None) false [] 0 0 [].

Definition set_fields (f : Fields) (w : World) : World :=
  mkWorld f (mongoReady w) (inits w) (clients w) (now w) (effects w).

Definition set_inits (l : list Init) (w : World) : World :=
  mkWorld (fields w) (mongoReady w) l (clients w) (now w) (effects w).

Definition emit (e : Effect) (w : World) : World :=
  mkWorld (fields w) (mongoReady w) (inits w) (clients w) (now w)
          (e :: effects w).

(** [this.isInitialized = false; this.initializationPromise = null;] *)
Definition reset (w : World) : World :=
  set_fields (mkFields (client (fields w)) false None) w.

(** The wait for [ready] is bounded by [setTimeout(..., 120000)]. *)
Definition initTimeout : Z := 120000.

(** [_initialize] from [new MongoStore] to [await this.client.initialize()]:
    a new client replaces [this.client] and is asked to initialize. *)
Definition create_client (w : World) : World :=
  let c := clients w in
  emit (ClientInitialize c)
    (emit (NewClient c)
       (mkWorld (mkFields (Some c) (isInitialized (fields w))
                          (initializationPromise (fields w)))
                (mongoReady w) (inits w) (S c) (now w) (effects w))).

(** The synchronous part of [_initialize()]: returns the new promise. *)
Definition _initialize (w : World) : nat * World :=
  let p := length (inits w) in
  if mongoReady w
  then (p, set_inits (inits w ++ [mkInit AwaitClientInit Pending])
                     (create_client w))
  else (p, set_inits (inits w ++ [mkInit AwaitMongo Pending])
                     (emit MongoConnect w)).

(** [connect()].  The promise an [async] function returns follows the
    promise it is resolved with, so the caller observes exactly the
    settlement of the promise named here. *)
Definition connect (w : World) : nat * World :=
  match initializationPromise (fields w) with
  | Some p => (p, w)
  | None =>
      let '(p, w1) := _initialize w in
      (p, set_fields (mkFields (client (fields w1))
                               (isInitialized (fields w1)) (Some p)) w1)
  end.

(** [n] calls of [connect] one after the other. *)
Fixpoint connect_many (n : nat) (w : World) : list nat * World :=
  match n with
  | O => ([], w)
  | S n' =>
      let '(p, w1) := connect w in
      let '(ps, w2) := connect_many n' w1 in
      (p :: ps, w2)
  end.

(** The [catch] block of [_initialize], for the call with promise [p]. *)
Definition init_failed (p : nat) (reason : string) (w : World) : World :=
  let w1 := reset w in
  set_inits
    (<[p := mkInit Finished
              (Rejected (mkAppError
                 ("WhatsApp client initialization failed: " +:+ reason) 500))]>
       (inits w1))
    w1.

Definition set_stage (p : nat) (st : Stage) (w : World) : World :=
  set_inits (<[p := mkInit st Pending]> (inits w)) w.

(** What the environment does to the service.  The messages, pages and
    the lifetime timer that the handlers also produce are left out. *)
Inductive Event :=
  | EvMongoConnected (p : nat) (err : option string)
  | EvClientInitialized (p : nat) (err : option string)
  | EvReady (c : nat)               (* the client emits [ready] *)
  | EvAuthFailure (c : nat) (err : string)
  | EvDisconnected (c : nat) (reason : string)
  | EvAdvance (d : Z)               (* [d] milliseconds pass *)
  | EvInitTimeout (p : nat).        (* the timer of the wait fires *)

(** The end of [_initialize] for every call that waits for [ready] of
    client [c]: [this.isInitialized = true; return this.client]. *)
Definition ready_one (c : nat) (cur : option nat) (i : Init) : Init :=
  match stage i, cur with
  | AwaitReady c' _, Some v =>
      if bool_decide (c' = c) then mkInit Finished (resolve v (result i)) else i
  | _, _ => i
  end.

Definition waits_for (c : nat) (i : Init) : bool :=
  match stage i with
  | AwaitReady c' _ => bool_decide (c' = c)
  | _ => false
  end.

Definition auth_failed_one (c : nat) (err : string) (i : Init) : Init :=
  if waits_for c i
  then mkInit Finished
         (reject (mkAppError
            ("WhatsApp client initialization failed: Authentication failed: "
             +:+ err) 500) (result i))
  else i.

Definition step (e : Event) (w : World) : option World :=
  match e with
  | EvMongoConnected p err =>
      i ← inits w !! p;
      match stage i, err with
      | AwaitMongo, None =>
          Some (set_stage p AwaitClientInit
                  (create_client
                     (mkWorld (fields w) true (inits w) (clients w) (now w)
                              (effects w))))
      | AwaitMongo, Some reason => Some (init_failed p reason w)
      | _, _ => None
      end
  | EvClientInitialized p err =>
      i ← inits w !! p;
      match stage i, err, client (fields w) with
      | AwaitClientInit, None, Some c =>
          Some (set_stage p (AwaitReady c (now w + initTimeout)) w)
      | AwaitClientInit, Some reason, _ => Some (init_failed p reason w)
      | _, _, _ => None
      end
  | EvReady c =>
      if existsb (waits_for c) (inits w)
      then Some (set_inits (ready_one c (client (fields w)) <$> inits w)
                   (set_fields (mkFields (client (fields w)) true
                                  (initializationPromise (fields w))) w))
      else Some w
  | EvAuthFailure c err =>
      Some (set_inits (auth_failed_one c err <$> inits w) (reset w))
  | EvDisconnected c reason => Some (reset w)
  | EvAdvance d =>
      if bool_decide (0 ≤ d)
      then Some (mkWorld (fields w) (mongoReady w) (inits w) (clients w)
                         (now w + d) (effects w))
      else None
  | EvInitTimeout p =>
      i ← inits w !! p;
      match stage i with
      | AwaitReady _ deadline =>
          if bool_decide (deadline ≤ now w)
          then Some (init_failed p "Client initialization timed out" w)
          else None
      | _ => None
      end
  end.

Fixpoint run (es : list Event) (w : World) : option World :=
  match es with
  | [] => Some w
  | e :: es' => w' ← step e w; run es' w'
  end.

(** What [client.destroy()] or [client.logout()] does when awaited. *)
Inductive External := Done | Throws (reason : string).

(** The result of a fallible method. *)
Inductive Result (A : Type) := Returned (a : A) | Thrown (e : AppError).
Arguments Returned {A} a.
Arguments Thrown {A} e.

(** [destroy()] *)
Definition destroy (x : External) (w : World) : Result bool * World :=
  match isInitialized (fields w), client (fields w) with
  | true, Some c =>
      let w1 := emit (ClientDestroy c) w in
      match x with
      | Done => (Returned true, reset w1)
      | Throws reason =>
          (Thrown (mkAppError ("Failed to destroy client: " +:+ reason) 500), w1)
      end
  | _, _ => (Returned false, w)
  end.

(** [logout()] *)
Definition logout (x : External) (w : World) : Result bool * World :=
  match isInitialized (fields w), client (fields w) with
  | true, Some c =>
      let w1 := emit (ClientLogout c) w in
      match x with
      | Done => (Returned true, reset w1)
      | Throws reason =>
          (Thrown (mkAppError ("Failed to logout: " +:+ reason) 500), w1)
      end
  | _, _ => (Returned false, w)
  end.

End Service.

(** ** Sending through the service, and the [POST /send] route *)

Module Routes.

(** The two singletons of the process. *)
Record App := mkApp { wa : Service.World; mq : Queue.State }.

(** [WhatsAppService.sendMessage(to, message, options)]: the guard, then
    [messageQueue.add].  The result names the queue item whose promise
    the caller gets. *)
Definition sendMessage (cfg : Queue.Config) (to : JsVal) (content : string)
  (priority : JsVal) (now : Z) (rnd : string) (a : App)
  : option (Service.Result nat * App) :=
  match Service.isInitialized (Service.fields (wa a)),
        Service.client (Service.fields (wa a)) with
  | true, Some _ =>
      '(r, q) ← Queue.add cfg
                  (Queue.mkOptions to content (js_or priority (JStr "normal")))
                  now rnd (mq a);
      Some (Service.Returned r, mkApp (wa a) q)
  | _, _ =>
      Some (Service.Thrown (mkAppError "WhatsApp client is not initialized" 400), a)
  end.

(** [req.body] of [POST /send] after destructuring. *)
Record Body := mkBody {
  body_message : JsVal;
  body_title : JsVal;
  body_to : JsVal;
  body_priority : JsVal
}.

(** What [res.status(code).json(...)] sends.  The [stack] field that the
    error handler adds in development is left out. *)
Inductive Json :=
  | ErrorJson (status message : string)
  | SentJson (success : bool) (message : string) (data : Queue.SendResult).

Record Response := mkResponse { code : Z; json : Json }.

(** The global [errorHandler] middleware, which [catchAsync] hands every
    rejection of a route to. *)
Definition errorHandler (err : AppError) : Response :=
  mkResponse (if statusCode err =? 0 then 500 else statusCode err)
             (ErrorJson (if bool_decide (status err = "") then "error"
                         else status err)
                        (message err)).

Definition newline : string := String "010"%char "".

(** Where the handler of [POST /send] is. *)
Inductive Handler :=
  | Responded (r : Response)
  | AwaitConnect (recipient : JsVal) (content : string) (priority : JsVal)
                 (p : nat)                (* at [await ...connect()] *)
  | AwaitResult (r : nat).                (* at [await ...sendMessage(...)] *)

(** The handler up to its first [await].  [admin] is
    [config.notifications.adminNumber]. *)
Definition send_begin (admin : JsVal) (b : Body) (a : App) : Handler * App :=
  if negb (truthy (body_message b)) || negb (truthy (body_title b))
  then (Responded (errorHandler
                     (mkAppError "Title and message are required fields" 400)),
        a)
  else
    let content := "*" +:+ js_string (body_title b) +:+ "*" +:+ newline
                   +:+ newline +:+ js_string (body_message b) in
    let recipient := js_or (body_to b) admin in
    let priority := js_or (body_priority b) (JStr "normal") in
    let '(p, w) := Service.connect (wa a) in
    (AwaitConnect recipient content priority p, mkApp w (mq a)).

(** The handler resumes once the promise of [connect()] is settled. *)
Definition send_connected (cfg : Queue.Config) (h : Handler) (now : Z)
  (rnd : string) (a : App) : option (Handler * App) :=
  match h with
  | AwaitConnect recipient content priority p =>
      i ← Service.inits (wa a) !! p;
      match Service.result i with
      | Fulfilled _ =>
          '(res, a1) ← sendMessage cfg recipient content priority now rnd a;
          match res with
          | Service.Returned r => Some (AwaitResult r, a1)
          | Service.Thrown e => Some (Responded (errorHandler e), a1)
          end
      | Rejected e => Some (Responded (errorHandler e), a)
      | Pending => None
      end
  | _ => None
  end.

(** The handler resumes once the promise of the queue item is settled. *)
Definition send_finished (h : Handler) (a : App) : option Handler :=
  match h with
  | AwaitResult r =>
      p ← Queue.caller_of (mq a) r;
      match p with
      | Fulfilled v =>
          Some (Responded (mkResponse 200
                  (SentJson true "Message queued successfully" v)))
      | Rejected e => Some (Responded (errorHandler e))
      | Pending => None
      end
  | _ => None
  end.

End Routes.

(** * Auxiliary predicates and the runs used below *)

(** Two queue states that differ at most in the backlog. *)
Definition same_but_queue (s1 s2 : Queue.State) : Prop :=
  Queue.set_queue [] s1 = Queue.set_queue [] s2.

(** The runs of the queue that are evaluated below, under the defaults of
    [config.queue] (delay 1000, three attempts, retry delay 5000, one
    message at a time). *)
Module Scenario.
Import Queue.

Definition defaults : Config := mkConfig 1000 3 5000 1.

Definition opts (body : string) : Options :=
  mkOptions (JStr "4915100000000@c.us") body (JStr "normal").

Definition delivered : SendOutcome :=
  SendOk (mkSendResult true "true_4915100000000@c.us_3EB0" 1700000000).

Definition transport_error : SendOutcome :=
  SendErr "Failed to send message: socket closed".

(** One item; its first send fails. *)
Definition first_failure : list Event :=
  [ EvAdd (opts "one") 100 "k3j9x0a";
    EvSendDone 0 transport_error; EvRetryElapsed 0; EvBatchSettled ].

(** ... and its second send succeeds. *)
Definition then_success : list Event :=
  [ EvDelayElapsed; EvSendDone 0 delivered; EvBatchSettled; EvDelayElapsed ].

(** Three items are added in a row; the first send of the first item
    fails, every other send succeeds. *)
Definition three_items : list Event :=
  [ EvAdd (opts "one") 100 "k3j9x0a";
    EvAdd (opts "two") 101 "p0q8w2e";
    EvAdd (opts "three") 102 "z7m1n5b";
    EvSendDone 0 transport_error; EvRetryElapsed 0;
    EvBatchSettled; EvDelayElapsed;
    EvSendDone 0 delivered; EvBatchSettled; EvDelayElapsed;
    EvSendDone 0 delivered; EvBatchSettled; EvDelayElapsed;
    EvSendDone 0 delivered; EvBatchSettled; EvDelayElapsed ].

(** [MAX_RETRIES=0]: no retry is wanted. *)
Definition no_retries : Config := mkConfig 1000 0 5000 1.

Definition one_item : list Event := [ EvAdd (opts "one") 100 "k3j9x0a" ].

(** The queue after [first_failure], and after [then_success] as well. *)
Definition after_failure : State :=
  default init (run defaults first_failure init).

Definition after_success : State :=
  default init (run defaults then_success after_failure).

End Scenario.

(** Worlds of the service that are used below. *)
Module Session.
Import Service.

(** The process after the server connected to MongoDB. *)
Definition started : World :=
  mkWorld (mkFields None false None) true [] 0 0 [].

(** ... after the first [connect()]: the client exists and is being
    initialized. *)
Definition initializing : World := (connect started).2.

(** ... after the client announced [ready]. *)
Definition ready : World :=
  default initializing
    (run [EvClientInitialized 0 None; EvAdvance 8000; EvReady 0] initializing).

End Session.

(** What [_initialize] throws when the wait for [ready] times out. *)
Definition timeout_error : AppError :=
  mkAppError
    "WhatsApp client initialization failed: Client initialization timed out"
    500.

(** The response of [POST /send] to a body without title or message. *)
Definition missing_fields : Routes.Response :=
  Routes.mkResponse 400
    (Routes.ErrorJson "fail" "Title and message are required fields").

(** A body of [POST /send] without a title. *)
Definition untitled : Routes.Body :=
  Routes.mkBody (JStr "disk is full") JUndefined JUndefined JUndefined.

(** A complete body of [POST /send]. *)
Definition alert : Routes.Body :=
  Routes.mkBody (JStr "disk is full") (JStr "Alert") JUndefined JUndefined.

(** A process whose session is ready and whose queue is new. *)
Definition ready_app : Routes.App := Routes.mkApp Session.ready Queue.init.


(** The request [alert] on [ready_app], from the handler's start to its
    response: the handler at its two [await]s, the options of the items
    in the queue, and the handler at the end. *)
Definition send_alert_run
  : option (Routes.Handler * Routes.Handler * list Queue.Options * Routes.Handler) :=
  let '(h1, a1) := Routes.send_begin (JStr "4915100000000@c.us") alert ready_app in
  '(h2, a2) ← Routes.send_connected Scenario.defaults h1 100 "k3j9x0a" a1;
  q ← Queue.run Scenario.defaults
        [Queue.EvSendDone 0 Scenario.delivered; Queue.EvBatchSettled]
        (Routes.mq a2);
  h3 ← Routes.send_finished h2 (Routes.mkApp (Routes.wa a2) q);
  Some (h1, h2, Queue.options <$> (Queue.obj <$> Queue.heap q), h3).

(** The invariant behind the bound on [attempts]. *)
Module Bound.
Import Queue.

(** The first attempt is made whatever [maxRetries] says. *)
Definition cap (cfg : Config) : Z := Z.max 1 (maxRetries cfg).

Definition attempts_at (h : list Cell) (r : nat) : option Z :=
  (λ c, attempts (obj c)) <$> h !! r.

Definition batch_of (l : Loop) : list (nat * Task) :=
  match l with AwaitBatch b => b | _ => [] end.

(** The items of a batch that are still in the hands of their call of
    [processMessage]: these are outside the backlog. *)
Fixpoint owned_of (b : list (nat * Task)) : list nat :=
  match b with
  | [] => []
  | e :: b' => if task_settled e.2 then owned_of b' else e.1 :: owned_of b'
  end.

(** An item that waits for its retry has attempts to spare. *)
Definition retry_ok (cfg : Config) (h : list Cell) (e : nat * Task) : Prop :=
  ∃ a, attempts_at h e.1 = Some a ∧
       match e.2 with TRetryDelay _ => a < maxRetries cfg | _ => True end.

Record Inv (cfg : Config) (s : State) : Prop := mkInv {
  inv_nodup : NoDup (queue s ++ owned_of (batch_of (loop s)));
  inv_queue : Forall (λ r, ∃ a, attempts_at (heap s) r = Some a ∧ a < cap cfg)
                     (queue s);
  inv_heap : ∀ r a, attempts_at (heap s) r = Some a → 0 ≤ a ≤ cap cfg;
  inv_batch : Forall (retry_ok cfg (heap s)) (batch_of (loop s))
}.

(** Every item of [s] is still there in [s'], with at least as many
    attempts. *)
Definition grows (s s' : State) : Prop :=
  ∀ r a, attempts_of s r = Some a →
         ∃ a', attempts_of s' r = Some a' ∧ a ≤ a'.

End Bound.

(** * Further predicates on the queue *)

Module Ledger.
Import Queue.

(** The events that are calls of [add], and those that end a retry wait. *)
Definition is_add (e : Event) : bool :=
  match e with EvAdd _ _ _ => true | _ => false end.

Definition is_retry (e : Event) : bool :=
  match e with EvRetryElapsed _ => true | _ => false end.

(** The number of calls of [add] in a run. *)
Fixpoint added (es : list Event) : nat :=
  match es with
  | [] => 0
  | e :: es' => (if is_add e then 1 else 0) + added es'
  end.

(** The items of the batch in flight, in the order of [batch]. *)
Definition dispatched (s : State) : list nat := (Bound.batch_of (loop s)).*1.

(** What [add] fixes about an item once and for all. *)
Definition label (c : Cell) : string * Options * Z :=
  (id (obj c), options (obj c), addedAt (obj c)).

(** The flag [processing] says whether a call of [process] is suspended,
    and the backlog is only non-empty while one is. *)
Definition busy (l : Loop) : bool :=
  match l with Idle => false | _ => true end.

Definition attended (s : State) : Prop :=
  processing s = busy (loop s) ∧ (processing s = false → queue s = []).

(** The batch in flight is not empty and not larger than [concurrency]. *)
Definition batch_bounded (cfg : Config) (s : State) : Prop :=
  ∀ b, loop s = AwaitBatch b → (1 ≤ length b ≤ concurrency cfg)%nat.

(** Dispatch follows the order of addition: the items in flight and then
    the backlog are in the order in which [add] created them. *)
Definition in_order (s : State) : Prop :=
  StronglySorted lt (dispatched s ++ queue s) ∧
  Forall (λ r, (r < length (heap s))%nat) (dispatched s ++ queue s).

End Ledger.

(** Further runs of the queue. *)
Module Cases.
Import Queue.

(** Two messages at a time. *)
Definition pairwise : Config := mkConfig 1000 3 5000 2.

(** Four items and one completed send, no failure. *)
Definition steady : list Event :=
  [ EvAdd (Scenario.opts "one") 100 "k3j9x0a";
    EvAdd (Scenario.opts "two") 101 "p0q8w2e";
    EvAdd (Scenario.opts "three") 102 "z7m1n5b";
    EvSendDone 0 Scenario.delivered;
    EvAdd (Scenario.opts "four") 103 "c4v6b8n" ].

Definition steady_state : State := default init (run pairwise steady init).

(** The first item of [Scenario.first_failure] as it is when the batch
    of its first attempt has been settled. *)
Definition failed_once : Cell :=
  mkCell (mkMsg "100k3j9x0a" (Scenario.opts "one") 1 100)
         (Rejected (mkAppError "Message will be retried (1/3)" 500)).

(** One item whose first send has just failed. *)
Definition failing : State :=
  default init
    (run Scenario.defaults
       [ EvAdd (Scenario.opts "one") 100 "k3j9x0a";
         EvSendDone 0 Scenario.transport_error ] init).

(** The item that [add] creates, after its first attempt. *)
Definition tried (o : Options) (now : Z) (rnd : string) : Msg :=
  mkMsg (pretty now +:+ rnd) o 1 now.

End Cases.

(** * The service over whole runs *)

Module Lifecycle.
Import Service.

(** Everything that happens to the service: calls of its methods, with
    the answer of the client where a method awaits one, and the events of
    the environment. *)
Inductive Action :=
  | Connect
  | Destroy (x : External)
  | Logout (x : External)
  | Env (e : Event).

Definition act (a : Action) (w : World) : option World :=
  match a with
  | Connect => Some (connect w).2
  | Destroy x => Some (destroy x w).2
  | Logout x => Some (logout x w).2
  | Env e => step e w
  end.

Fixpoint acts (l : list Action) (w : World) : option World :=
  match l with
  | [] => Some w
  | a :: l' => w' ← act a w; acts l' w'
  end.

(** What holds of one call of [_initialize], given whether [this.client]
    is set, how many clients exist and what time it is. *)
Definition init_ok (has_client : bool) (n : nat) (t : Z) (i : Init) : Prop :=
  match stage i with
  | AwaitMongo => result i = Pending
  | AwaitClientInit => result i = Pending ∧ has_client = true
  | AwaitReady c d =>
      result i = Pending ∧ has_client = true ∧ (c < n)%nat ∧ d ≤ t + initTimeout
  | Finished => settled (result i) = true
  end.

Definition has_client (w : World) : bool :=
  match client (fields w) with Some _ => true | None => false end.

Record sound (w : World) : Prop := mkSound {
  sound_client : ∀ c, client (fields w) = Some c → (c < clients w)%nat;
  sound_promise :
    ∀ p, initializationPromise (fields w) = Some p → (p < length (inits w))%nat;
  sound_ready : isInitialized (fields w) = true → has_client w = true;
  sound_inits : Forall (init_ok (has_client w) (clients w) (now w)) (inits w)
}.

(** The service of a new process; [m] tells whether the server has
    already connected to MongoDB when the service is first used. *)
Definition start (m : bool) : World :=
  mkWorld (mkFields None false None) m [] 0 0 [].

(** The usual way to a ready session, from a process without MongoDB. *)
Definition bring_up : list Action :=
  [ Connect; Env (EvMongoConnected 0 None); Env (EvClientInitialized 0 None);
    Env (EvAdvance 8000); Env (EvReady 0) ].

Definition brought_up : World := default init (acts bring_up (start false)).

(** ... stopped while the client has not announced [ready] yet. *)
Definition held_up : World :=
  default init (acts (take 4 bring_up) (start false)).

(** ... and then disconnected while the first attempt still waits. *)
Definition interrupted : World :=
  default init
    (acts (take 4 bring_up ++ [Env (EvDisconnected 0 "NAVIGATION")])
          (start false)).

(** A process whose first attempt is held at [await
    this.client.initialize()] for ten hours. *)
Definition stalled : World :=
  default Session.initializing
    (step (EvAdvance 36000000) Session.initializing).





(** What [_initialize] throws when authentication fails. *)
Definition auth_error (err : string) : AppError :=
  mkAppError
    ("WhatsApp client initialization failed: Authentication failed: " +:+ err)
    500.

End Lifecycle.

(** * The other routes, the error handler at large, the lifetime timer *)

Module Api.
Import Routes.

(** An error object as the global [errorHandler] receives it: its
    message, and [statusCode] and [status], which only an [AppError] (or
    the 404 handler, for [statusCode]) sets. *)
Record ErrorObject := mkErrorObject {
  err_message : string;
  err_statusCode : JsVal;
  err_status : JsVal
}.

(** An [AppError] as an error object. *)
Definition thrown (e : AppError) : ErrorObject :=
  mkErrorObject (message e) (JNum (statusCode e)) (JStr (status e)).

(** The error of the 404 handler of [server.js]:
    [new Error(`Cannot find ${req.originalUrl} on this server!`)] with
    [statusCode = 404]. *)
Definition not_found (url : string) : ErrorObject :=
  mkErrorObject ("Cannot find " +:+ url +:+ " on this server!") (JNum 404)
                JUndefined.

(** What [errorHandler] answers: the argument of [res.status] and the
    [status] and [message] of the JSON (without the development stack). *)
Record ErrorReply := mkErrorReply {
  reply_code : JsVal;
  reply_status : JsVal;
  reply_message : string
}.

(** [errorHandler(err, req, res, next)] on any error object. *)
Definition handle (err : ErrorObject) : ErrorReply :=
  mkErrorReply (js_or (err_statusCode err) (JNum 500))
               (js_or (err_status err) (JStr "error"))
               (err_message err).

(** The classification of a status code by the constructor of
    [AppError]. *)
Definition status_of_code (c : Z) : string := status (mkAppError "" c).

(** The answers of the routes that reply with [{ success, message }] or
    with the statistics, or through the error handler. *)
Inductive Reply :=
  | Plain (code : Z) (success : bool) (message : string)
  | WithStats (code : Z) (data : Queue.Stats)
  | Failed (r : Response).

(** [POST /initialize]: up to [await whatsappService.connect()], and once
    that promise is settled. *)
Definition initialize_begin (a : App) : nat * App :=
  let '(p, w) := Service.connect (wa a) in (p, mkApp w (mq a)).

Definition initialize_finished (p : nat) (a : App) : option Reply :=
  i ← Service.inits (wa a) !! p;
  match Service.result i with
  | Fulfilled _ => Some (Plain 200 true "WhatsApp client initialized successfully")
  | Rejected e => Some (Failed (errorHandler e))
  | Pending => None
  end.

(** The answer to a request that waited for an attempt which failed for
    [reason]. *)
Definition init_failure (reason : string) : Response :=
  mkResponse 500
    (ErrorJson "error" ("WhatsApp client initialization failed: " +:+ reason)).

(** The content that [POST /send] composes, and the options of the item
    it enqueues. *)
Definition content_of (b : Body) : string :=
  "*" +:+ js_string (body_title b) +:+ "*" +:+ newline +:+ newline
  +:+ js_string (body_message b).

Definition options_of (admin : JsVal) (b : Body) : Queue.Options :=
  Queue.mkOptions (js_or (body_to b) admin) (content_of b)
                  (js_or (body_priority b) (JStr "normal")).

(** The answer of [POST /send] to a session that is not initialized. *)
Definition not_initialized : Response :=
  mkResponse 400 (ErrorJson "fail" "WhatsApp client is not initialized").

(** [POST /destroy] *)
Definition destroy_route (x : Service.External) (a : App) : Reply * App :=
  let '(res, w) := Service.destroy x (wa a) in
  (match res with
   | Service.Returned true => Plain 200 true "Client destroyed successfully"
   | Service.Returned false => Plain 200 true "Client was not initialized"
   | Service.Thrown e => Failed (errorHandler e)
   end,
   mkApp w (mq a)).

(** [POST /logout], with its own [try]/[catch] around [logout()]. *)
Definition logout_route (x : Service.External) (a : App) : Reply * App :=
  let '(res, w) := Service.logout x (wa a) in
  (match res with
   | Service.Returned true => Plain 200 true "Successfully logged out of WhatsApp"
   | Service.Returned false => Plain 400 false "Not currently logged in to WhatsApp"
   | Service.Thrown e =>
       Failed (errorHandler (mkAppError ("Logout failed: " +:+ message e) 500))
   end,
   mkApp w (mq a)).

(** [GET /queue], through [getQueueStats()]. *)
Definition queue_route (a : App) : Reply := WithStats 200 (Queue.getStats (mq a)).

(** [DELETE /queue], through [clearQueue()]. *)
Definition clear_route (a : App) : Reply * App :=
  let '(n, q) := Queue.clear (mq a) in
  (Plain 200 true ("Cleared " +:+ pretty n +:+ " messages from queue"),
   mkApp (wa a) q).

(** The callback that [_setupClientLifetime] arms: where it is. *)
Inductive Expiry :=
  | Expired                      (* the callback has returned *)
  | AwaitNotice (r : nat).       (* at [await this.sendMessage(...)] *)

(** The callback up to its first [await].  [admin] is
    [config.notifications.adminNumber]. *)
Definition lifetime_fired (cfg : Queue.Config) (admin : JsVal) (now : Z)
  (rnd : string) (a : App) : option (Expiry * App) :=
  match Service.isInitialized (Service.fields (wa a)),
        Service.client (Service.fields (wa a)) with
  | true, Some _ =>
      '(res, a1) ← sendMessage cfg admin "Client destroyed due to lifetime limit"
                     JUndefined now rnd a;
      match res with
      | Service.Returned r => Some (AwaitNotice r, a1)
      | Service.Thrown _ => Some (Expired, a1)
      end
  | _, _ => Some (Expired, mkApp (Service.reset (wa a)) (mq a))
  end.

(** The callback resumes once the promise of the notice is settled: on
    fulfilment [await this.client.destroy()], answered by [x], and then
    the reset; every rejection ends in the [catch] block, which only
    logs. *)
Definition lifetime_noticed (x : Service.External) (h : Expiry) (a : App)
  : option App :=
  match h with
  | AwaitNotice r =>
      p ← Queue.caller_of (mq a) r;
      match p with
      | Fulfilled _ =>
          match Service.client (Service.fields (wa a)), x with
          | Some c, Service.Done =>
              Some (mkApp (Service.reset (Service.emit (Service.ClientDestroy c) (wa a)))
                          (mq a))
          | Some c, Service.Throws _ =>
              Some (mkApp (Service.emit (Service.ClientDestroy c) (wa a)) (mq a))
          | None, _ => Some a
          end
      | Rejected _ => Some a
      | Pending => None
      end
  | Expired => None
  end.

(** A ready session whose queue holds the lifetime notice, rejected at
    its first failure. *)
Definition notice_failed : Expiry * App :=
  default (Expired, ready_app)
    ('(h, a) ← lifetime_fired Scenario.defaults (JStr "4915100000000@c.us")
                 100 "k3j9x0a" ready_app;
     q ← Queue.run Scenario.defaults
           [Queue.EvSendDone 0 Scenario.transport_error;
            Queue.EvRetryElapsed 0; Queue.EvBatchSettled] (mq a);
     Some (h, mkApp (wa a) q)).

(** An application whose first attempt waits for [ready], and one whose
    session was ready and then lost its connection. *)
Definition held_up_app : App := mkApp Lifecycle.held_up Queue.init.

Definition dropped_app : App :=
  mkApp (default Session.ready
           (Service.step (Service.EvDisconnected 0 "NAVIGATION") Session.ready))
        Queue.init.

End Api.
(** * Properties *)

(** ** The embedding at work *)

Example status_of_400 : status (mkAppError "bad request" 400) = "fail".
Proof. reflexivity. Qed.

Example status_of_500 : status (mkAppError "oops" 500) = "error".
Proof. reflexivity. Qed.

Example session_ready :
  Service.fields Session.ready = Service.mkFields (Some 0%nat) true (Some 0%nat) ∧
  Service.inits Session.ready
    = [Service.mkInit Service.Finished (Fulfilled 0%nat)] ∧
  Service.effects Session.ready
    = [Service.ClientInitialize 0; Service.NewClient 0].
Proof. vm_compute. auto. Qed.

(** A complete request on a ready session: the message is composed,
    queued, sent, and answered with 200. *)
Example send_alert :
  send_alert_run
  = Some (Routes.AwaitConnect (JStr "4915100000000@c.us")
            ("*Alert*" +:+ Routes.newline +:+ Routes.newline +:+ "disk is full")
            (JStr "normal") 0,
          Routes.AwaitResult 0,
          [Queue.mkOptions (JStr "4915100000000@c.us")
             ("*Alert*" +:+ Routes.newline +:+ Routes.newline +:+ "disk is full")
             (JStr "normal")],
          Routes.Responded
            (Routes.mkResponse 200
               (Routes.SentJson true "Message queued successfully"
                  (Queue.mkSendResult true "true_4915100000000@c.us_3EB0"
                     1700000000)))).
Proof. vm_compute. reflexivity. Qed.

(** ** [clear] *)

Section Clear.
Import Queue.

Lemma same_but_queue_clear (s : State) : same_but_queue (clear s).2 s.
Proof. reflexivity. Qed.

Lemma same_but_queue_set_loop (l : Loop) (s1 s2 : State) :
  same_but_queue s1 s2 → same_but_queue (set_loop l s1) (set_loop l s2).
Proof.
  unfold same_but_queue, set_queue, set_loop; simpl.
  intros H; injection H as -> -> -> -> -> _; reflexivity.
Qed.

Lemma settle_one_same (s1 s2 : State) (e : nat * Task) :
  same_but_queue s1 s2 → same_but_queue (settle_one s1 e) (settle_one s2 e).
Proof.
  unfold same_but_queue, set_queue; simpl.
  intros H; injection H as Hp Hs Hq Hf Hh Hl.
  destruct e as [r [ | | v | err]]; simpl; congruence.
Qed.

Lemma settle_all_same (b : list (nat * Task)) (s1 s2 : State) :
  same_but_queue s1 s2 →
  same_but_queue (foldl settle_one s1 b) (foldl settle_one s2 b).
Proof.
  revert s1 s2; induction b as [|e b IH]; intros s1 s2 H; simpl; [done|].
  apply IH, settle_one_same, H.
Qed.

(** The completion of a send is blind to the backlog. *)
Lemma processMessage_sent_same (cfg : Config) (i : nat) (o : SendOutcome) (s : State) :
  option_Forall2 same_but_queue
    (processMessage_sent cfg i o (clear s).2) (processMessage_sent cfg i o s).
Proof.
  unfold processMessage_sent; simpl.
  destruct (loop s) as [|b|]; try constructor.
  destruct (b !! i) as [[r [ | | | ]]|]; try constructor.
  destruct o as [v|reason]; simpl.
  - constructor. reflexivity.
  - destruct (heap s !! r) as [c|]; simpl; [|constructor].
    case_bool_decide; constructor; reflexivity.
Qed.

(** So is the settlement of the batch by [process]. *)
Lemma process_settled_same (s : State) :
  option_Forall2 same_but_queue (process_settled (clear s).2) (process_settled s).
Proof.
  unfold process_settled; simpl.
  destruct (loop s) as [|b|]; try constructor.
  destruct (forallb _ b); constructor.
  apply same_but_queue_set_loop, settle_all_same, same_but_queue_clear.
Qed.

(** A retry that comes back after [clear] enters the emptied backlog. *)
Lemma processMessage_retry_after_clear (cfg : Config) (i : nat) (s : State) :
  option_Forall2
    (λ s1 s2, same_but_queue s1 s2 ∧
              ∃ r, queue s1 = [r] ∧ queue s2 = r :: queue s)
    (processMessage_retry cfg i (clear s).2) (processMessage_retry cfg i s).
Proof.
  unfold processMessage_retry; simpl.
  destruct (loop s) as [|b|]; try constructor.
  destruct (b !! i) as [[r [ | reason | | ]]|]; try constructor.
  destruct (heap s !! r) as [c|]; simpl; constructor.
  split; [reflexivity | exists r; done].
Qed.

End Clear.

(** C6: [clear()] returns the length of the backlog at the moment of the
    call and leaves the backlog empty; the batch in flight, the item
    objects and their promises are as before, and every later event of
    that batch (a send that completes, a retry delay that ends, the
    settlement of the batch) has the same effect on everything but the
    backlog as it would have had without the [clear]. *)
Theorem clear_empties_backlog_only (cfg : Queue.Config) (s : Queue.State) :
  (Queue.clear s).1 = Z.of_nat (length (Queue.queue s)) ∧
  Queue.queue (Queue.clear s).2 = [] ∧
  Queue.loop (Queue.clear s).2 = Queue.loop s ∧
  Queue.heap (Queue.clear s).2 = Queue.heap s ∧
  (∀ i o, option_Forall2 same_but_queue
            (Queue.step cfg (Queue.EvSendDone i o) (Queue.clear s).2)
            (Queue.step cfg (Queue.EvSendDone i o) s)) ∧
  (∀ i, option_Forall2 same_but_queue
          (Queue.step cfg (Queue.EvRetryElapsed i) (Queue.clear s).2)
          (Queue.step cfg (Queue.EvRetryElapsed i) s)) ∧
  option_Forall2 same_but_queue
    (Queue.step cfg Queue.EvBatchSettled (Queue.clear s).2)
    (Queue.step cfg Queue.EvBatchSettled s).
Proof.
  repeat split.
  - intros i o. apply processMessage_sent_same.
  - intros i.
    change (option_Forall2 same_but_queue
              (Queue.processMessage_retry cfg i (Queue.clear s).2)
              (Queue.processMessage_retry cfg i s)).
    destruct (processMessage_retry_after_clear cfg i s) as [s1 s2 [H _]|];
      constructor; exact H.
  - apply process_settled_same.
Qed.

(** C10: [clear()] changes the backlog and nothing else: the three
    lifetime counters and the processing flag are the same before and
    after, and so is the snapshot of [getStats()] except for [queued],
    which reads 0. *)
Theorem clear_frame (s : Queue.State) :
  Queue.messagesSent (Queue.clear s).2 = Queue.messagesSent s ∧
  Queue.messagesFailed (Queue.clear s).2 = Queue.messagesFailed s ∧
  Queue.messagesQueued (Queue.clear s).2 = Queue.messagesQueued s ∧
  Queue.processing (Queue.clear s).2 = Queue.processing s ∧
  Queue.getStats (Queue.clear s).2 =
    Queue.mkStats 0 (Queue.sent (Queue.getStats s))
                  (Queue.failed (Queue.getStats s))
                  (Queue.total (Queue.getStats s))
                  (Queue.stat_processing (Queue.getStats s)).
Proof. repeat split. Qed.

(** ** Retries and the caller's promise *)

Section Retry.
Import Queue.

(** [process] treats every rejection of [processMessage] alike: the
    promise of the caller is rejected, if it was pending, and the failure
    is counted, also when the rejection only announces a retry. *)
Lemma settle_rejection (s : State) (r : nat) (c : Cell) (e : AppError) :
  heap s !! r = Some c →
  caller_of (settle_one s (r, TRejected e)) r = Some (reject e (caller c)) ∧
  messagesFailed (settle_one s (r, TRejected e)) = messagesFailed s + 1.
Proof.
  intros H. unfold caller_of, settle_one, settle_caller; simpl. rewrite H.
  rewrite list_lookup_insert_eq by exact (lookup_lt_Some _ _ _ H). done.
Qed.

(** A later success cannot settle that promise again. *)
Lemma settle_success_late (s : State) (r : nat) (c : Cell) (v : SendResult) :
  heap s !! r = Some c → settled (caller c) = true →
  caller_of (settle_one s (r, TFulfilled v)) r = Some (caller c) ∧
  messagesSent (settle_one s (r, TFulfilled v)) = messagesSent s + 1.
Proof.
  intros H Hs. unfold caller_of, settle_one, settle_caller; simpl. rewrite H.
  rewrite list_lookup_insert_eq by exact (lookup_lt_Some _ _ _ H).
  destruct (caller c); [discriminate|done|done].
Qed.

End Retry.

(** C1: under the default configuration, an item whose first send fails
    (one attempt out of three) has its caller's promise rejected with the
    retry message as soon as the batch is settled, while the item is back
    in the backlog, and the failure is counted; the successful second send
    then counts as sent, with [attempts] at 2, but the promise stays
    rejected. *)
Theorem retry_settles_caller_promise :
  (s ← Queue.run Scenario.defaults Scenario.first_failure Queue.init;
   Some (Queue.caller_of s 0%nat, Queue.attempts_of s 0%nat, Queue.queue s,
         Queue.messagesFailed s))
  = Some (Some (Rejected (mkAppError "Message will be retried (1/3)" 500)),
          Some 1, [0%nat], 1) ∧
  (s ← Queue.run Scenario.defaults
         (Scenario.first_failure ++ Scenario.then_success) Queue.init;
   Some (Queue.caller_of s 0%nat, Queue.attempts_of s 0%nat,
         Queue.messagesSent s, Queue.messagesFailed s))
  = Some (Some (Rejected (mkAppError "Message will be retried (1/3)" 500)),
          Some 2, 1, 1).
Proof. split; vm_compute; reflexivity. Qed.

(** C2: three items with one message at a time, the first send of the
    first item failing once.  The items are sent in the order one (twice),
    two, three, and the final snapshot reads sent 3 and failed 1: the
    retried failure is counted, and the promise of the first item is
    rejected. *)
Theorem three_items_stats :
  (s ← Queue.run Scenario.defaults (take 5 Scenario.three_items) Queue.init;
   Some (Queue.queue s))
  = Some [0; 1; 2]%nat ∧
  (s ← Queue.run Scenario.defaults Scenario.three_items Queue.init;
   Some (Queue.getStats s, Queue.caller_of s 0%nat,
         settled <$> Queue.caller_of s 1%nat,
         settled <$> Queue.caller_of s 2%nat))
  = Some (Queue.mkStats 0 3 1 3 false,
          Some (Rejected (mkAppError "Message will be retried (1/3)" 500)),
          Some true, Some true).
Proof. split; vm_compute; reflexivity. Qed.

(** ** The session service *)

Section Connect.
Import Service.

Lemma connect_in_flight (w : World) (p : nat) :
  initializationPromise (fields w) = Some p → connect w = (p, w).
Proof. unfold connect; intros ->; reflexivity. Qed.

Lemma connect_many_in_flight (n : nat) (w : World) (p : nat) :
  initializationPromise (fields w) = Some p →
  connect_many n w = (replicate n p, w).
Proof.
  intros H; induction n as [|n IH]; simpl; [reflexivity|].
  rewrite (connect_in_flight w p H), IH; reflexivity.
Qed.

(** A first call on an idle service starts exactly one initialization
    and records its promise. *)
Lemma connect_idle (w : World) :
  initializationPromise (fields w) = None →
  (connect w).1 = length (inits w) ∧
  initializationPromise (fields (connect w).2) = Some (length (inits w)) ∧
  length (inits (connect w).2) = S (length (inits w)) ∧
  (result <$> inits (connect w).2 !! length (inits w)) = Some Pending.
Proof.
  unfold connect, _initialize; intros ->.
  destruct (mongoReady w); simpl;
    rewrite length_app, Nat.add_1_r, lookup_app_r, Nat.sub_diag by lia;
    done.
Qed.

(** Any number of calls on an idle service: one initialization. *)
Lemma connect_many_idle (n : nat) (w : World) :
  initializationPromise (fields w) = None →
  connect_many (S n) w = (replicate (S n) (length (inits w)), (connect w).2) ∧
  length (inits (connect w).2) = S (length (inits w)).
Proof.
  intros H. destruct (connect_idle w H) as (Hp & Hf & Hl & _).
  split; [|exact Hl]. simpl.
  destruct (connect w) as [p w1] eqn:E; simpl in *; subst p.
  rewrite (connect_many_in_flight n w1 _ Hf); reflexivity.
Qed.

End Connect.

(** C3, as the code has it: calls of [connect] are coalesced on the
    recorded initialization promise.  Of any number of calls in a row,
    the first returns the recorded promise and changes nothing, or, when
    no promise is recorded, starts exactly one attempt (one new pending
    promise, which it records, and one new client if MongoDB is
    connected); every further call returns that same promise and starts
    nothing, so all callers observe the settlement of one attempt. *)
Theorem connect_starts_at_most_one (n : nat) (w : Service.World) :
  Service.connect_many (S n) w
    = (replicate (S n) (Service.connect w).1, (Service.connect w).2) ∧
  match Service.initializationPromise (Service.fields w) with
  | Some p => Service.connect w = (p, w)
  | None =>
      (Service.connect w).1 = length (Service.inits w) ∧
      Service.initializationPromise (Service.fields (Service.connect w).2)
        = Some (length (Service.inits w)) ∧
      length (Service.inits (Service.connect w).2)
        = S (length (Service.inits w)) ∧
      Service.result <$>
          Service.inits (Service.connect w).2 !! length (Service.inits w)
        = Some Pending ∧
      Service.clients (Service.connect w).2
        = (Service.clients w + if Service.mongoReady w then 1 else 0)%nat
  end.
Proof.
  destruct (Service.initializationPromise (Service.fields w)) as [p|] eqn:Hp.
  - rewrite (connect_in_flight w p Hp). split; [|reflexivity].
    exact (connect_many_in_flight (S n) w p Hp).
  - destruct (connect_many_idle n w Hp) as [Hm _].
    destruct (connect_idle w Hp) as (H1 & H2 & H3 & H4).
    split; [by rewrite Hm, H1|].
    split; [exact H1|]. split; [exact H2|]. split; [exact H3|].
    split; [exact H4|].
    unfold Service.connect, Service._initialize. rewrite Hp.
    destruct (Service.mongoReady w); simpl; lia.
Qed.

(** C3, as stated, fails once the recorded promise has been reset while
    the attempt goes on: after a [disconnected] event during the wait for
    [ready], the first attempt is still in flight with a pending promise,
    yet three calls of [connect] start a second attempt, with a second
    client, and all return the promise of that second attempt. *)
Lemma connect_after_reset_starts_second :
  Service.inits Lifecycle.interrupted
    = [Service.mkInit (Service.AwaitReady 0 120000) Pending] ∧
  Service.clients Lifecycle.interrupted = 1%nat ∧
  (Service.connect_many 3 Lifecycle.interrupted).1 = [1; 1; 1]%nat ∧
  Service.inits (Service.connect_many 3 Lifecycle.interrupted).2
    = [Service.mkInit (Service.AwaitReady 0 120000) Pending;
       Service.mkInit Service.AwaitClientInit Pending] ∧
  Service.clients (Service.connect_many 3 Lifecycle.interrupted).2 = 2%nat.
Proof. vm_compute. repeat split. Qed.

Section Destroy.
Import Service.

Lemma destroy_false_iff (x : External) (w : World) :
  (destroy x w).1 = Returned false ↔
  isInitialized (fields w) = false ∨ client (fields w) = None.
Proof.
  unfold destroy.
  destruct (isInitialized (fields w)), (client (fields w)) as [c|];
    try destruct x; simpl; split; intros H; auto; try discriminate;
    destruct H; discriminate.
Qed.

Lemma destroy_guard_fails (x : External) (w : World) :
  isInitialized (fields w) = false ∨ client (fields w) = None →
  destroy x w = (Returned false, w).
Proof.
  unfold destroy.
  destruct (isInitialized (fields w)), (client (fields w)) as [c|];
    intros [H|H]; try discriminate; reflexivity.
Qed.

Lemma destroy_true_resets (x : External) (w w1 : World) :
  destroy x w = (Returned true, w1) → isInitialized (fields w1) = false.
Proof.
  unfold destroy.
  destruct (isInitialized (fields w)), (client (fields w)) as [c|];
    try destruct x; intros H; inversion H; reflexivity.
Qed.

End Destroy.

(** C4, as the code has it: [destroy()] acts only on an initialized
    service.  It returns [false] exactly when [isInitialized] is false or
    there is no client, and then changes nothing and calls nothing, even
    if a client object exists; on an initialized service it calls
    [client.destroy()] on the client, and when that call succeeds it
    returns [true] with [isInitialized] and the initialization promise
    reset. *)
Theorem destroy_only_when_initialized (x : Service.External) (w : Service.World) :
  ((Service.destroy x w).1 = Service.Returned false ↔
     Service.isInitialized (Service.fields w) = false ∨
     Service.client (Service.fields w) = None) ∧
  match Service.isInitialized (Service.fields w),
        Service.client (Service.fields w) with
  | true, Some c =>
      Service.effects (Service.destroy x w).2
        = Service.ClientDestroy c :: Service.effects w ∧
      Service.destroy Service.Done w
        = (Service.Returned true,
           Service.reset (Service.emit (Service.ClientDestroy c) w))
  | _, _ => Service.destroy x w = (Service.Returned false, w)
  end.
Proof.
  split; [apply destroy_false_iff|].
  unfold Service.destroy.
  destruct (Service.isInitialized (Service.fields w)),
           (Service.client (Service.fields w)) as [c|]; try reflexivity.
  destruct x; split; reflexivity.
Qed.

(** C4, as stated, fails while the client is being initialized: a client
    object exists, yet [destroy()] returns [false] and makes no call to
    it. *)
Lemma destroy_keeps_initializing_client :
  Service.client (Service.fields Session.initializing) = Some 0%nat ∧
  Service.destroy Service.Done Session.initializing
    = (Service.Returned false, Session.initializing) ∧
  Service.ClientDestroy 0
    ∉ Service.effects (Service.destroy Service.Done Session.initializing).2.
Proof.
  split; [reflexivity|]. split; [reflexivity|].
  vm_compute. intros H.
  repeat (apply elem_of_cons in H as [H|H]; [discriminate|]).
  by apply elem_of_nil in H.
Qed.

(** C9: when a call of [destroy()] has returned [true], the next call
    returns [false], throws nothing and changes nothing, whatever the
    client would have answered. *)
Theorem destroy_twice (x1 x2 : Service.External) (w w1 : Service.World) :
  Service.destroy x1 w = (Service.Returned true, w1) →
  Service.destroy x2 w1 = (Service.Returned false, w1).
Proof.
  intros H. apply destroy_guard_fails. left.
  exact (destroy_true_resets x1 w w1 H).
Qed.

Lemma destroy_twice_witness :
  Service.destroy Service.Done
    (Service.destroy Service.Done Session.ready).2
  = (Service.Returned false, (Service.destroy Service.Done Session.ready).2).
Proof.
  apply (destroy_twice Service.Done Service.Done Session.ready).
  reflexivity.
Defined.

Section Timeout.
Import Service.

Lemma init_failed_fields (p : nat) (reason : string) (w : World) :
  fields (init_failed p reason w) = mkFields (client (fields w)) false None.
Proof. reflexivity. Qed.

Lemma init_failed_result (p : nat) (reason : string) (w : World) (i : Init) :
  inits w !! p = Some i →
  inits (init_failed p reason w) !! p
  = Some (mkInit Finished
            (Rejected (mkAppError
               ("WhatsApp client initialization failed: " +:+ reason) 500))).
Proof.
  intros H. unfold init_failed; simpl.
  apply list_lookup_insert_eq, (lookup_lt_Some _ _ _ H).
Qed.

Lemma init_failed_length (p : nat) (reason : string) (w : World) :
  length (inits (init_failed p reason w)) = length (inits w).
Proof. unfold init_failed; simpl. apply length_insert. Qed.

(** The wait for [ready] starts with a deadline 120000 ms ahead. *)
Lemma wait_begins (w : World) (p c : nat) :
  inits w !! p = Some (mkInit AwaitClientInit Pending) →
  client (fields w) = Some c →
  step (EvClientInitialized p None) w
  = Some (set_stage p (AwaitReady c (now w + 120000)) w).
Proof. intros Hi Hc. simpl. rewrite Hi; simpl. rewrite Hc. reflexivity. Qed.

(** There is no timer before that: an attempt that is still connecting to
    MongoDB or initializing its client is not timed out. *)
Lemma no_timer_before_wait (w : World) (p : nat) (i : Init) :
  inits w !! p = Some i →
  stage i = AwaitMongo ∨ stage i = AwaitClientInit →
  step (EvInitTimeout p) w = None.
Proof. intros Hi Hs. simpl. rewrite Hi; simpl. by destruct Hs as [-> | ->]. Qed.

(** The timer does not fire before the deadline. *)
Lemma timer_early (w : World) (p c : nat) (deadline : Z) (r : Promise nat) :
  inits w !! p = Some (mkInit (AwaitReady c deadline) r) →
  now w < deadline →
  step (EvInitTimeout p) w = None.
Proof.
  intros Hi Hd. simpl. rewrite Hi; simpl.
  rewrite bool_decide_eq_false_2 by lia. reflexivity.
Qed.

(** At or after the deadline it fires and runs the [catch] block. *)
Lemma timer_fires (w : World) (p c : nat) (deadline : Z) (r : Promise nat) :
  inits w !! p = Some (mkInit (AwaitReady c deadline) r) →
  deadline ≤ now w →
  step (EvInitTimeout p) w
  = Some (init_failed p "Client initialization timed out" w).
Proof.
  intros Hi Hd. simpl. rewrite Hi; simpl.
  rewrite bool_decide_eq_true_2 by lia. reflexivity.
Qed.

End Timeout.

(** C5, as the code has it: the time-out bounds the wait for [ready],
    which begins when [client.initialize()] has returned.  Take an
    initialization attempt whose client has been asked to initialize.  Let [d] milliseconds pass from then on without [ready] or
    [auth_failure].  Before 120000 ms the timer of the wait cannot fire.  From 120000 ms on it fires: the promise of
    the attempt is rejected with the time-out error (status 500),
    [isInitialized] is false and the initialization promise is cleared;
    the next [connect()] then starts a new attempt with a new pending
    promise, which it records. *)
Theorem init_timeout_resets (w : Service.World) (p c : nat) (d : Z) :
  Service.inits w !! p = Some (Service.mkInit Service.AwaitClientInit Pending) →
  Service.client (Service.fields w) = Some c →
  0 ≤ d →
  ∃ w0,
    Service.run [Service.EvClientInitialized p None; Service.EvAdvance d] w
      = Some w0 ∧
    (if bool_decide (d < 120000)
     then Service.step (Service.EvInitTimeout p) w0 = None
     else ∃ w1,
       Service.step (Service.EvInitTimeout p) w0 = Some w1 ∧
       Service.result <$> Service.inits w1 !! p = Some (Rejected timeout_error) ∧
       Service.isInitialized (Service.fields w1) = false ∧
       Service.initializationPromise (Service.fields w1) = None ∧
       (Service.connect w1).1 = length (Service.inits w1) ∧
       (Service.connect w1).1 ≠ p ∧
       Service.initializationPromise (Service.fields (Service.connect w1).2)
         = Some (Service.connect w1).1 ∧
       length (Service.inits (Service.connect w1).2)
         = S (length (Service.inits w1)) ∧
       Service.result <$>
           Service.inits (Service.connect w1).2 !! (Service.connect w1).1
         = Some Pending).
Proof.
  intros Hi Hc Hd.
  pose proof (lookup_lt_Some _ _ _ Hi) as Hlt.
  set (wa := Service.set_stage p (Service.AwaitReady c (Service.now w + 120000)) w).
  set (w0 := Service.mkWorld (Service.fields wa) (Service.mongoReady wa)
               (Service.inits wa) (Service.clients wa) (Service.now wa + d)
               (Service.effects wa)).
  assert (Hw0 : Service.inits w0 !! p
                = Some (Service.mkInit
                          (Service.AwaitReady c (Service.now w + 120000)) Pending)).
  { simpl. apply list_lookup_insert_eq, Hlt. }
  exists w0. split.
  - cbn [Service.run]. rewrite (wait_begins w p c Hi Hc).
    cbn [mbind option_bind]. simpl.
    rewrite bool_decide_eq_true_2 by lia. reflexivity.
  - case_bool_decide as Hlate.
    + apply (timer_early w0 p c _ _ Hw0). simpl. lia.
    + eexists. split; [apply (timer_fires w0 p c _ _ Hw0); simpl; lia|].
      set (w1 := Service.init_failed p "Client initialization timed out" w0).
      assert (Hidle : Service.initializationPromise (Service.fields w1) = None)
        by reflexivity.
      destruct (connect_idle w1 Hidle) as (Hp & Hf & Hl & Hr).
      split; [unfold w1; by erewrite init_failed_result|].
      split; [reflexivity|]. split; [reflexivity|].
      split; [exact Hp|].
      split.
      { rewrite Hp. unfold w1. rewrite init_failed_length. simpl.
        rewrite length_insert. lia. }
      split; [rewrite Hp; exact Hf|].
      split; [exact Hl|].
      rewrite Hp; exact Hr.
Qed.

Lemma init_timeout_resets_witness :
  ∃ w0,
    Service.run [Service.EvClientInitialized 0 None; Service.EvAdvance 120000]
                Session.initializing = Some w0 ∧
    (if bool_decide (120000 < 120000)
     then Service.step (Service.EvInitTimeout 0) w0 = None
     else ∃ w1,
       Service.step (Service.EvInitTimeout 0) w0 = Some w1 ∧
       Service.result <$> Service.inits w1 !! 0%nat = Some (Rejected timeout_error) ∧
       Service.isInitialized (Service.fields w1) = false ∧
       Service.initializationPromise (Service.fields w1) = None ∧
       (Service.connect w1).1 = length (Service.inits w1) ∧
       (Service.connect w1).1 ≠ 0%nat ∧
       Service.initializationPromise (Service.fields (Service.connect w1).2)
         = Some (Service.connect w1).1 ∧
       length (Service.inits (Service.connect w1).2)
         = S (length (Service.inits w1)) ∧
       Service.result <$>
           Service.inits (Service.connect w1).2 !! (Service.connect w1).1
         = Some Pending).
Proof.
  apply (init_timeout_resets Session.initializing 0 0 120000);
    [reflexivity | reflexivity | lia].
Defined.

(** C5, as stated, fails for an attempt that has not reached the wait for
    [ready]: ten hours after [connect()], with [client.initialize()]
    still pending, there is no timer to fire, the promise of the attempt
    is pending and still recorded, and [connect()] keeps returning it. *)
Lemma initialization_held_never_times_out :
  Service.now Lifecycle.stalled = 36000000 ∧
  Service.inits Lifecycle.stalled
    = [Service.mkInit Service.AwaitClientInit Pending] ∧
  Service.step (Service.EvInitTimeout 0) Lifecycle.stalled = None ∧
  Service.initializationPromise (Service.fields Lifecycle.stalled)
    = Some 0%nat ∧
  Service.connect Lifecycle.stalled = (0%nat, Lifecycle.stalled).
Proof. vm_compute. repeat split. Qed.


(** ** The [POST /send] route *)

Section Send.
Import Routes.

Lemma send_begin_invalid (admin : JsVal) (b : Body) (a : App) :
  truthy (body_message b) = false ∨ truthy (body_title b) = false →
  send_begin admin b a = (Responded missing_fields, a).
Proof.
  unfold send_begin. intros [-> | ->]; simpl; [reflexivity|].
  rewrite orb_true_r. reflexivity.
Qed.

End Send.

(** C8: a [POST /send] whose body lacks [message] or [title] is answered
    at once with status 400, classification [fail] and the message
    "Title and message are required fields"; the service and the queue
    are exactly as before, so nothing is enqueued and the statistics are
    unchanged. *)
Theorem send_requires_title_and_message
  (admin : JsVal) (b : Routes.Body) (a : Routes.App) :
  Routes.body_message b = JUndefined ∨ Routes.body_title b = JUndefined →
  Routes.send_begin admin b a = (Routes.Responded missing_fields, a) ∧
  Queue.queue (Routes.mq (Routes.send_begin admin b a).2)
    = Queue.queue (Routes.mq a) ∧
  Queue.getStats (Routes.mq (Routes.send_begin admin b a).2)
    = Queue.getStats (Routes.mq a).
Proof.
  intros H.
  assert (E : Routes.send_begin admin b a = (Routes.Responded missing_fields, a)).
  { apply send_begin_invalid. destruct H as [-> | ->]; auto. }
  rewrite E. auto.
Qed.

Lemma send_requires_title_and_message_witness :
  Routes.send_begin JUndefined untitled ready_app
    = (Routes.Responded missing_fields, ready_app) ∧
  Queue.queue (Routes.mq (Routes.send_begin JUndefined untitled ready_app).2)
    = Queue.queue (Routes.mq ready_app) ∧
  Queue.getStats (Routes.mq (Routes.send_begin JUndefined untitled ready_app).2)
    = Queue.getStats (Routes.mq ready_app).
Proof.
  apply (send_requires_title_and_message JUndefined untitled ready_app).
  right. reflexivity.
Defined.

(** ** The attempts counter *)

Section Attempts.
Import Queue Bound.

Lemma cap_pos (cfg : Config) : 1 ≤ cap cfg.
Proof. unfold cap; lia. Qed.

Lemma cap_max (cfg : Config) : maxRetries cfg ≤ cap cfg.
Proof. unfold cap; lia. Qed.

(** *** Reading [attempts] through the updates of the store *)

Lemma attempts_at_processMessage (h : list Cell) (x r : nat) :
  attempts_at (processMessage h x) r
  = if decide (x = r) then (λ a, a + 1) <$> attempts_at h r
    else attempts_at h r.
Proof.
  unfold attempts_at, processMessage.
  destruct (h !! x) as [c|] eqn:E.
  - case_decide as Hx.
    + subst r. rewrite list_lookup_insert_eq by exact (lookup_lt_Some _ _ _ E).
      rewrite E. reflexivity.
    + rewrite list_lookup_insert_ne by exact Hx. reflexivity.
  - case_decide as Hx; [subst r; rewrite E|]; reflexivity.
Qed.

Lemma attempts_at_bump_all (l : list nat) (h : list Cell) (r : nat) :
  NoDup l →
  attempts_at (foldl processMessage h l) r
  = if decide (r ∈ l) then (λ a, a + 1) <$> attempts_at h r
    else attempts_at h r.
Proof.
  intros Hnd; revert h; induction Hnd as [|x l Hx Hnd IH]; intros h;
    cbn [foldl].
  - rewrite decide_False by apply not_elem_of_nil. reflexivity.
  - rewrite IH, attempts_at_processMessage.
    destruct (decide (x = r)) as [->|Hne].
    + rewrite decide_False by exact Hx.
      rewrite decide_True by apply list_elem_of_here. reflexivity.
    + destruct (decide (r ∈ l)) as [Hin|Hout].
      * rewrite decide_True by (by apply list_elem_of_further). reflexivity.
      * rewrite decide_False; [reflexivity|].
        intros [->|H]%elem_of_cons; [by apply Hne | by apply Hout].
Qed.

Lemma bump_all_grows (l : list nat) (h : list Cell) (r : nat) (a : Z) :
  attempts_at h r = Some a →
  ∃ a', attempts_at (foldl processMessage h l) r = Some a' ∧ a ≤ a'.
Proof.
  revert h a; induction l as [|x l IH]; intros h a H; simpl.
  - exists a; split; [exact H | lia].
  - destruct (IH (processMessage h x) (if decide (x = r) then a + 1 else a))
      as (a' & Ha' & Hle).
    + rewrite attempts_at_processMessage, H. by case_decide.
    + exists a'. split; [exact Ha'|]. case_decide; lia.
Qed.

Lemma attempts_at_settle_caller
  (f : Promise SendResult → Promise SendResult) (x : nat) (h : list Cell)
  (r : nat) :
  attempts_at (settle_caller f x h) r = attempts_at h r.
Proof.
  unfold attempts_at, settle_caller.
  destruct (h !! x) as [c|] eqn:E; [|reflexivity].
  destruct (decide (x = r)) as [->|Hne].
  - rewrite list_lookup_insert_eq by exact (lookup_lt_Some _ _ _ E).
    rewrite E. reflexivity.
  - rewrite list_lookup_insert_ne by exact Hne. reflexivity.
Qed.

Lemma settle_one_keeps (s : State) (e : nat * Task) :
  queue (settle_one s e) = queue s ∧
  ∀ r, attempts_at (heap (settle_one s e)) r = attempts_at (heap s) r.
Proof.
  destruct e as [x [ | reason | v | err]]; simpl; split; try reflexivity;
    intros r; apply attempts_at_settle_caller.
Qed.

Lemma settle_all_keeps (b : list (nat * Task)) (s : State) :
  queue (foldl settle_one s b) = queue s ∧
  ∀ r, attempts_at (heap (foldl settle_one s b)) r = attempts_at (heap s) r.
Proof.
  revert s; induction b as [|e b IH]; intros s; simpl; [done|].
  destruct (IH (settle_one s e)) as [Hq Ha].
  destruct (settle_one_keeps s e) as [Hq1 Ha1].
  split; [congruence|]. intros r. rewrite Ha. apply Ha1.
Qed.

Lemma attempts_at_snoc_old (h : list Cell) (c : Cell) (r : nat) (a : Z) :
  attempts_at h r = Some a → attempts_at (h ++ [c]) r = Some a.
Proof.
  unfold attempts_at. intros H.
  destruct (h !! r) as [c'|] eqn:E; [|discriminate].
  by rewrite (lookup_app_l_Some _ _ _ _ E).
Qed.

Lemma attempts_at_lt (h : list Cell) (r : nat) (a : Z) :
  attempts_at h r = Some a → (r < length h)%nat.
Proof.
  unfold attempts_at. intros H.
  destruct (h !! r) as [c'|] eqn:E; [|discriminate].
  exact (lookup_lt_Some _ _ _ E).
Qed.

Lemma attempts_at_snoc (h : list Cell) (c : Cell) (r : nat) :
  attempts_at (h ++ [c]) r
  = if decide (r = length h) then Some (attempts (obj c))
    else attempts_at h r.
Proof.
  unfold attempts_at. case_decide as H.
  - subst r. rewrite lookup_app_r, Nat.sub_diag by lia. reflexivity.
  - destruct (decide (r < length h)%nat) as [Hlt|Hge].
    + by rewrite lookup_app_l.
    + rewrite !lookup_ge_None_2; [reflexivity | lia |].
      rewrite length_app; simpl; lia.
Qed.

(** *** The items of a batch that are still owned *)

Lemma owned_of_sending (l : list nat) :
  owned_of ((λ r, (r, TSending)) <$> l) = l.
Proof. induction l as [|x l IH]; [done|]. cbn. f_equal. exact IH. Qed.

Lemma owned_of_insert_open (b : list (nat * Task)) (i r : nat) (t t' : Task) :
  b !! i = Some (r, t) → task_settled t = false → task_settled t' = false →
  owned_of (<[i := (r, t')]> b) = owned_of b.
Proof.
  revert i; induction b as [|e b IH]; intros [|i] H Ht Ht'; simpl in *;
    try discriminate.
  - injection H as ->. simpl. by rewrite Ht, Ht'.
  - by rewrite (IH i H Ht Ht').
Qed.

Lemma owned_of_insert_settled (b : list (nat * Task)) (i r : nat) (t t' : Task) :
  b !! i = Some (r, t) → task_settled t = false → task_settled t' = true →
  ∃ o1 o2, owned_of b = o1 ++ r :: o2 ∧
           owned_of (<[i := (r, t')]> b) = o1 ++ o2.
Proof.
  revert i; induction b as [|e b IH]; intros [|i] H Ht Ht'; simpl in *;
    try discriminate.
  - injection H as ->. simpl. rewrite Ht, Ht'. by exists [], (owned_of b).
  - destruct (IH i H Ht Ht') as (o1 & o2 & E1 & E2).
    destruct (task_settled e.2).
    + by exists o1, o2.
    + exists (e.1 :: o1), o2. simpl. by rewrite E1, E2.
Qed.

Lemma nodup_drop_middle (q o1 o2 : list nat) (r : nat) :
  NoDup (q ++ o1 ++ r :: o2) → NoDup (q ++ o1 ++ o2) ∧ r ∉ q ++ o1 ++ o2.
Proof.
  intros H.
  assert (P : q ++ o1 ++ r :: o2 ≡ₚ r :: q ++ o1 ++ o2).
  { rewrite !app_assoc. symmetry. apply Permutation_middle. }
  rewrite P in H. apply NoDup_cons in H as [Hr Hnd]. by split.
Qed.

Lemma owned_of_elem (b : list (nat * Task)) (r : nat) :
  r ∈ owned_of b → ∃ t, (r, t) ∈ b.
Proof.
  induction b as [|[x t] b IH]; simpl; intros H.
  - by apply elem_of_nil in H.
  - destruct (task_settled t).
    + destruct (IH H) as [t' Ht']. exists t'. by apply list_elem_of_further.
    + apply elem_of_cons in H as [->|H].
      * exists t. apply list_elem_of_here.
      * destruct (IH H) as [t' Ht']. exists t'. by apply list_elem_of_further.
Qed.

(** *** The invariant holds at the start and is kept by every step *)

Lemma init_inv (cfg : Config) : Inv cfg init.
Proof.
  constructor; simpl.
  - apply NoDup_nil_2.
  - apply Forall_nil_2.
  - intros r a H. unfold attempts_at in H. by rewrite lookup_nil in H.
  - apply Forall_nil_2.
Qed.

Lemma process_inv (cfg : Config) (s s' : State) :
  Inv cfg s → process cfg s = Some s' → Inv cfg s'.
Proof.
  intros [Hnd Hq Hh Hb]. unfold process.
  destruct (processing s || bool_decide (queue s = [])).
  { intros [= <-]. by constructor. }
  case_bool_decide as Hne; [discriminate|]. intros [= <-].
  set (c := concurrency cfg) in *.
  assert (Hsplit : take c (queue s) ++ drop c (queue s) = queue s)
    by apply take_drop.
  assert (Hq' : NoDup (take c (queue s) ++ drop c (queue s))).
  { rewrite Hsplit. by apply NoDup_app in Hnd as (? & _ & _). }
  pose proof Hq' as (Ht & Htd & Hd)%NoDup_app.
  rewrite <- Hsplit in Hq. apply Forall_app in Hq as [Hqt Hqd].
  rewrite Forall_forall in Hqt. rewrite Forall_forall in Hqd.
  constructor; simpl.
  - rewrite owned_of_sending.
    by rewrite (Permutation_app_comm (drop c (queue s))).
  - apply Forall_forall. intros r Hr.
    destruct (Hqd r Hr) as (a & Ha & Hlt).
    exists a. split; [|exact Hlt].
    rewrite attempts_at_bump_all by exact Ht.
    rewrite decide_False; [exact Ha|].
    intros Hin. exact (Htd r Hin Hr).
  - intros r a. rewrite attempts_at_bump_all by exact Ht.
    case_decide as Hin; [|apply Hh].
    destruct (Hqt r Hin) as (a0 & Ha0 & Hlt).
    rewrite Ha0. intros [= <-].
    pose proof (Hh r a0 Ha0). lia.
  - apply Forall_fmap, Forall_forall. intros r Hr.
    destruct (Hqt r Hr) as (a0 & Ha0 & Hlt).
    exists (a0 + 1). split; [|done]. simpl.
    rewrite attempts_at_bump_all by exact Ht.
    rewrite decide_True by exact Hr. by rewrite Ha0.
Qed.

Lemma enqueue_inv (cfg : Config) (o : Options) (now : Z) (rnd : string)
  (s : State) :
  Inv cfg s → Inv cfg (enqueue o now rnd s).2.
Proof.
  intros [Hnd Hq Hh Hb].
  rewrite Forall_forall in Hq. rewrite Forall_forall in Hb.
  constructor; simpl.
  - assert (P : (queue s ++ [length (heap s)]) ++ owned_of (batch_of (loop s))
                ≡ₚ length (heap s) :: queue s ++ owned_of (batch_of (loop s))).
    { rewrite <- (assoc_L (++)). symmetry. apply Permutation_middle. }
    rewrite P. apply NoDup_cons. split; [|exact Hnd].
    intros [Hin|Hin]%elem_of_app.
    + destruct (Hq _ Hin) as (a & Ha & _).
      apply attempts_at_lt in Ha. lia.
    + destruct (owned_of_elem _ _ Hin) as [t Ht].
      destruct (Hb _ Ht) as (a & Ha & _).
      apply attempts_at_lt in Ha. simpl in Ha. lia.
  - apply Forall_app. split.
    + apply Forall_forall. intros r Hr.
      destruct (Hq r Hr) as (a & Ha & Hlt).
      exists a. split; [by apply attempts_at_snoc_old | exact Hlt].
    + apply Forall_singleton. exists 0. split.
      * rewrite attempts_at_snoc. by rewrite decide_True.
      * pose proof (cap_pos cfg). lia.
  - intros r a. rewrite attempts_at_snoc. case_decide.
    + simpl. intros [= <-]. pose proof (cap_pos cfg). lia.
    + apply Hh.
  - apply Forall_forall. intros e He.
    destruct (Hb e He) as (a & Ha & Hlt).
    exists a. split; [by apply attempts_at_snoc_old | exact Hlt].
Qed.

Lemma add_inv (cfg : Config) (o : Options) (now : Z) (rnd : string)
  (s : State) (r : nat) (s' : State) :
  Inv cfg s → add cfg o now rnd s = Some (r, s') → Inv cfg s'.
Proof.
  intros HI. unfold add.
  pose proof (enqueue_inv cfg o now rnd s HI) as HI1.
  destruct (enqueue o now rnd s) as [r1 s1]; simpl in HI1.
  destruct (processing s1).
  - intros [= _ <-]. exact HI1.
  - destruct (process cfg s1) as [s2|] eqn:E; simpl; [|discriminate].
    intros [= _ <-]. exact (process_inv cfg s1 s2 HI1 E).
Qed.

(** A call of [processMessage] moves on, the backlog is not touched. *)
Lemma task_update_inv (cfg : Config) (s : State) (b : list (nat * Task))
  (i r : nat) (t t' : Task) :
  Inv cfg s → loop s = AwaitBatch b → b !! i = Some (r, t) →
  task_settled t = false →
  (∀ a, attempts_at (heap s) r = Some a →
        match t' with TRetryDelay _ => a < maxRetries cfg | _ => True end) →
  Inv cfg (set_loop (AwaitBatch (<[i := (r, t')]> b)) s).
Proof.
  intros [Hnd Hq Hh Hb] Hl Hi Ht Ht'. rewrite Hl in Hnd, Hb. simpl in *.
  constructor; simpl; [|exact Hq|exact Hh|].
  - destruct (task_settled t') eqn:E.
    + destruct (owned_of_insert_settled b i r t t' Hi Ht E)
        as (o1 & o2 & E1 & E2).
      rewrite E2. rewrite E1 in Hnd.
      by apply nodup_drop_middle in Hnd as [? _].
    + by rewrite (owned_of_insert_open b i r t t' Hi Ht E).
  - apply Forall_insert; [exact Hb|].
    destruct (Forall_lookup_1 _ _ _ _ Hb Hi) as (a & Ha & _).
    exists a. split; [exact Ha | by apply Ht'].
Qed.

Lemma processMessage_sent_inv (cfg : Config) (i : nat) (o : SendOutcome) (s s' : State) :
  Inv cfg s → processMessage_sent cfg i o s = Some s' → Inv cfg s'.
Proof.
  intros HI. unfold processMessage_sent.
  destruct (loop s) as [|b|] eqn:Hl; try discriminate.
  destruct (b !! i) as [[r [ | | | ]]|] eqn:Hi; try discriminate.
  destruct o as [v|reason].
  - intros [= <-]. by apply (task_update_inv cfg s b i r TSending).
  - destruct (heap s !! r) as [c|] eqn:Hc; simpl; [|discriminate].
    case_bool_decide as Hlt; intros [= <-].
    + apply (task_update_inv cfg s b i r TSending); try done.
      intros a. unfold attempts_at. rewrite Hc. by intros [= <-].
    + by apply (task_update_inv cfg s b i r TSending).
Qed.

Lemma processMessage_retry_inv (cfg : Config) (i : nat) (s s' : State) :
  Inv cfg s → processMessage_retry cfg i s = Some s' → Inv cfg s'.
Proof.
  intros [Hnd Hq Hh Hb]. unfold processMessage_retry.
  destruct (loop s) as [|b|] eqn:Hl; try discriminate.
  destruct (b !! i) as [[r [ | reason | | ]]|] eqn:Hi; try discriminate.
  destruct (heap s !! r) as [c|] eqn:Hc; simpl; [|discriminate].
  intros [= <-]. simpl in *.
  destruct (owned_of_insert_settled b i r (TRetryDelay reason)
              (TRejected (retry_error cfg (obj c))) Hi eq_refl eq_refl)
    as (o1 & o2 & E1 & E2).
  destruct (Forall_lookup_1 _ _ _ _ Hb Hi) as (a & Ha & Hlt). simpl in *.
  constructor; simpl.
  - rewrite E2. rewrite E1 in Hnd.
    apply nodup_drop_middle in Hnd as [Hnd Hr].
    apply NoDup_cons. by split.
  - apply Forall_cons. split; [|exact Hq].
    exists a. split; [exact Ha|]. pose proof (cap_max cfg). lia.
  - exact Hh.
  - apply Forall_insert; [exact Hb|]. by exists a.
Qed.

Lemma process_settled_inv (cfg : Config) (s s' : State) :
  Inv cfg s → process_settled s = Some s' → Inv cfg s'.
Proof.
  intros [Hnd Hq Hh Hb]. unfold process_settled.
  destruct (loop s) as [|b|] eqn:Hl; try discriminate.
  destruct (forallb _ b); [|discriminate]. intros [= <-].
  destruct (settle_all_keeps b s) as [Eq Ea].
  constructor; simpl.
  - rewrite Eq, app_nil_r. by apply NoDup_app in Hnd as (? & _ & _).
  - rewrite Eq. eapply Forall_impl; [exact Hq|].
    intros r (a & Ha & Hlt). exists a. by rewrite Ea.
  - intros r a. rewrite Ea. apply Hh.
  - apply Forall_nil_2.
Qed.

Lemma process_finally_inv (cfg : Config) (s s' : State) :
  Inv cfg s → process_finally cfg s = Some s' → Inv cfg s'.
Proof.
  intros [Hnd Hq Hh Hb]. unfold process_finally.
  destruct (loop s) as [|b|] eqn:Hl; try discriminate.
  assert (HI1 : Inv cfg (set_loop Idle (set_processing false s))).
  { constructor; simpl; [|exact Hq|exact Hh|apply Forall_nil_2].
    rewrite app_nil_r. by apply NoDup_app in Hnd as (? & _ & _). }
  case_bool_decide.
  - by intros [= <-].
  - apply process_inv, HI1.
Qed.

Lemma clear_inv (cfg : Config) (s : State) : Inv cfg s → Inv cfg (clear s).2.
Proof.
  intros [Hnd Hq Hh Hb].
  constructor; simpl; [|apply Forall_nil_2|exact Hh|exact Hb].
  by apply NoDup_app in Hnd as (_ & _ & ?).
Qed.

Lemma step_inv (cfg : Config) (e : Event) (s s' : State) :
  Inv cfg s → step cfg e s = Some s' → Inv cfg s'.
Proof.
  intros HI. destruct e as [o now rnd|i o|i| | | ]; simpl.
  - destruct (add cfg o now rnd s) as [[r s1]|] eqn:E; simpl; [|discriminate].
    intros [= <-]. exact (add_inv cfg o now rnd s r s1 HI E).
  - by apply processMessage_sent_inv.
  - by apply processMessage_retry_inv.
  - by apply process_settled_inv.
  - by apply process_finally_inv.
  - intros [= <-]. by apply clear_inv.
Qed.

Lemma run_inv (cfg : Config) (es : list Event) (s s' : State) :
  Inv cfg s → run cfg es s = Some s' → Inv cfg s'.
Proof.
  revert s; induction es as [|e es IH]; intros s HI; simpl.
  - by intros [= <-].
  - destruct (step cfg e s) as [s1|] eqn:E; simpl; [|discriminate].
    apply IH. exact (step_inv cfg e s s1 HI E).
Qed.

(** *** [attempts] never goes down *)

Lemma grows_refl (s : State) : grows s s.
Proof. intros r a H. exists a. split; [exact H | lia]. Qed.

Lemma grows_trans (s1 s2 s3 : State) : grows s1 s2 → grows s2 s3 → grows s1 s3.
Proof.
  intros H12 H23 r a H.
  destruct (H12 r a H) as (a2 & H2 & Hle2).
  destruct (H23 r a2 H2) as (a3 & H3 & Hle3).
  exists a3. split; [exact H3 | lia].
Qed.

Lemma grows_same (s s' : State) :
  (∀ r, attempts_at (heap s') r = attempts_at (heap s) r) → grows s s'.
Proof.
  intros E r a H. exists a. split; [|lia].
  unfold attempts_of in *. fold (attempts_at (heap s') r). by rewrite E.
Qed.

Lemma process_grows (cfg : Config) (s s' : State) :
  process cfg s = Some s' → grows s s'.
Proof.
  unfold process.
  destruct (processing s || bool_decide (queue s = [])).
  { intros [= <-]. apply grows_refl. }
  case_bool_decide; [discriminate|]. intros [= <-] r a Ha.
  apply (bump_all_grows (take (concurrency cfg) (queue s)) (heap s) r a Ha).
Qed.

Lemma enqueue_grows (o : Options) (now : Z) (rnd : string) (s : State) :
  grows s (enqueue o now rnd s).2.
Proof.
  intros r a H. exists a. split; [|lia].
  by apply (attempts_at_snoc_old (heap s)).
Qed.

Lemma step_grows (cfg : Config) (e : Event) (s s' : State) :
  step cfg e s = Some s' → grows s s'.
Proof.
  destruct e as [o now rnd|i o|i| | | ]; simpl.
  - unfold add. pose proof (enqueue_grows o now rnd s) as H1.
    destruct (enqueue o now rnd s) as [r1 s1]; simpl in H1.
    destruct (processing s1); simpl.
    + by intros [= <-].
    + destruct (process cfg s1) as [s2|] eqn:E; simpl; [|discriminate].
      intros [= <-]. exact (grows_trans _ _ _ H1 (process_grows cfg s1 s2 E)).
  - unfold processMessage_sent.
    destruct (loop s) as [|b|]; try discriminate.
    destruct (b !! i) as [[r [ | | | ]]|]; try discriminate.
    destruct o as [v|reason].
    + intros [= <-]. by apply grows_same.
    + destruct (heap s !! r) as [c|]; simpl; [|discriminate].
      case_bool_decide; intros [= <-]; by apply grows_same.
  - unfold processMessage_retry.
    destruct (loop s) as [|b|]; try discriminate.
    destruct (b !! i) as [[r [ | | | ]]|]; try discriminate.
    destruct (heap s !! r) as [c|]; simpl; [|discriminate].
    intros [= <-]. by apply grows_same.
  - unfold process_settled.
    destruct (loop s) as [|b|]; try discriminate.
    destruct (forallb _ b); [|discriminate]. intros [= <-].
    apply grows_same. exact (proj2 (settle_all_keeps b s)).
  - unfold process_finally.
    destruct (loop s) as [|b|]; try discriminate.
    case_bool_decide.
    + intros [= <-]. by apply grows_same.
    + intros E. apply process_grows in E.
      refine (grows_trans _ _ _ _ E). by apply grows_same.
  - intros [= <-]. by apply grows_same.
Qed.

Lemma run_grows (cfg : Config) (es : list Event) (s s' : State) :
  run cfg es s = Some s' → grows s s'.
Proof.
  revert s; induction es as [|e es IH]; intros s; simpl.
  - intros [= <-]. apply grows_refl.
  - destruct (step cfg e s) as [s1|] eqn:E; simpl; [|discriminate].
    intros H. exact (grows_trans _ _ _ (step_grows cfg e s s1 E) (IH s1 H)).
Qed.

Lemma enqueue_starts_at_zero (o : Options) (now : Z) (rnd : string)
  (s : State) :
  attempts_of (enqueue o now rnd s).2 (enqueue o now rnd s).1 = Some 0.
Proof.
  unfold attempts_of; simpl.
  by rewrite lookup_app_r, Nat.sub_diag by lia.
Qed.

End Attempts.

(** C7, as the code has it: a new item is created with [attempts] at 0;
    along every run of the queue from its initial state the [attempts] of
    an item never goes down and never exceeds the larger of 1 and
    [maxRetries], which is [maxRetries] itself whenever that is at least
    1. *)
Theorem attempts_monotone_and_capped
  (cfg : Queue.Config) (es1 es2 : list Queue.Event) (s1 s2 : Queue.State)
  (r : nat) (a1 : Z) :
  Queue.run cfg es1 Queue.init = Some s1 →
  Queue.run cfg es2 s1 = Some s2 →
  Queue.attempts_of s1 r = Some a1 →
  (∀ o now rnd,
     Queue.attempts_of (Queue.enqueue o now rnd s2).2
                       (Queue.enqueue o now rnd s2).1 = Some 0) ∧
  ∃ a2, Queue.attempts_of s2 r = Some a2 ∧
        0 ≤ a1 ∧ a1 ≤ a2 ∧ a2 ≤ Z.max 1 (Queue.maxRetries cfg).
Proof.
  intros H1 H2 Ha. split; [intros; apply enqueue_starts_at_zero|].
  destruct (run_grows cfg es2 s1 s2 H2 r a1 Ha) as (a2 & Ha2 & Hle).
  pose proof (run_inv cfg es1 _ s1 (init_inv cfg) H1) as I1.
  pose proof (run_inv cfg es2 s1 s2 I1 H2) as I2.
  exists a2. split; [exact Ha2|].
  pose proof (Bound.inv_heap cfg s1 I1 r a1 Ha).
  pose proof (Bound.inv_heap cfg s2 I2 r a2 Ha2) as Hcap.
  unfold Bound.cap in *. lia.
Qed.

Lemma attempts_monotone_and_capped_witness :
  (∀ o now rnd,
     Queue.attempts_of (Queue.enqueue o now rnd Scenario.after_success).2
                       (Queue.enqueue o now rnd Scenario.after_success).1
     = Some 0) ∧
  ∃ a2, Queue.attempts_of Scenario.after_success 0 = Some a2 ∧
        0 ≤ 1 ∧ 1 ≤ a2 ∧ a2 ≤ Z.max 1 (Queue.maxRetries Scenario.defaults).
Proof.
  apply (attempts_monotone_and_capped Scenario.defaults
           Scenario.first_failure Scenario.then_success
           Scenario.after_failure Scenario.after_success 0 1);
    vm_compute; reflexivity.
Defined.

(** C7, as stated, fails when no retry is configured: with [maxRetries]
    at 0 the first attempt of an item is made all the same, and its
    [attempts] reads 1. *)
Lemma attempts_exceed_zero_retries :
  Queue.maxRetries Scenario.no_retries = 0 ∧
  (s ← Queue.run Scenario.no_retries Scenario.one_item Queue.init;
   Queue.attempts_of s 0%nat) = Some 1 ∧
  ¬ (1 ≤ Queue.maxRetries Scenario.no_retries).
Proof. split; [reflexivity|]. split; [vm_compute; reflexivity|]. simpl. lia. Qed.

(** * Further properties of the queue *)

Section Ledger.
Import Queue Bound Ledger.

(** ** The store through the steps *)

Lemma processMessage_length (h : list Cell) (r : nat) :
  length (processMessage h r) = length h.
Proof.
  unfold processMessage. destruct (h !! r); [apply length_insert | done].
Qed.

Lemma processMessage_all_length (l : list nat) (h : list Cell) :
  length (foldl processMessage h l) = length h.
Proof.
  revert h; induction l as [|x l IH]; intros h; simpl; [done|].
  by rewrite IH, processMessage_length.
Qed.

Lemma processMessage_lookup (h : list Cell) (x r : nat) (c : Cell) :
  h !! r = Some c →
  ∃ c', processMessage h x !! r = Some c' ∧
        caller c' = caller c ∧ label c' = label c.
Proof.
  intros H. unfold processMessage.
  destruct (h !! x) as [cx|] eqn:E; [|by exists c].
  destruct (decide (x = r)) as [->|Hne].
  - rewrite list_lookup_insert_eq by exact (lookup_lt_Some _ _ _ E).
    rewrite H in E. injection E as <-. by exists (bump c).
  - rewrite list_lookup_insert_ne by exact Hne. by exists c.
Qed.

Lemma processMessage_all_lookup (l : list nat) (h : list Cell) (r : nat)
  (c : Cell) :
  h !! r = Some c →
  ∃ c', foldl processMessage h l !! r = Some c' ∧
        caller c' = caller c ∧ label c' = label c.
Proof.
  revert h c; induction l as [|x l IH]; intros h c H; simpl.
  - by exists c.
  - destruct (processMessage_lookup h x r c H) as (c1 & H1 & Hc1 & Hl1).
    destruct (IH _ _ H1) as (c2 & H2 & Hc2 & Hl2).
    exists c2. split; [exact H2|]. split; congruence.
Qed.

Lemma settle_caller_length
  (f : Promise SendResult → Promise SendResult) (x : nat) (h : list Cell) :
  length (settle_caller f x h) = length h.
Proof.
  unfold settle_caller. destruct (h !! x); [apply length_insert | done].
Qed.

Lemma settle_caller_lookup
  (f : Promise SendResult → Promise SendResult) (x : nat) (h : list Cell)
  (r : nat) (c : Cell) :
  h !! r = Some c →
  ∃ c', settle_caller f x h !! r = Some c' ∧ label c' = label c ∧
        (caller c' = caller c ∨ (x = r ∧ caller c' = f (caller c))).
Proof.
  intros H. unfold settle_caller.
  destruct (h !! x) as [cx|] eqn:E; [|exists c; auto].
  destruct (decide (x = r)) as [->|Hne].
  - rewrite list_lookup_insert_eq by exact (lookup_lt_Some _ _ _ E).
    rewrite H in E. injection E as <-. eexists. split; [done|]. auto.
  - rewrite list_lookup_insert_ne by exact Hne. exists c; auto.
Qed.

Lemma resolve_settled {V} (v : V) (p : Promise V) :
  settled p = true → resolve v p = p.
Proof. by destruct p. Qed.

Lemma reject_settled {V} (e : AppError) (p : Promise V) :
  settled p = true → reject e p = p.
Proof. by destruct p. Qed.

Lemma settle_one_lookup (s : State) (e : nat * Task) (r : nat) (c : Cell) :
  heap s !! r = Some c →
  ∃ c', heap (settle_one s e) !! r = Some c' ∧ label c' = label c ∧
        (settled (caller c) = true → caller c' = caller c).
Proof.
  intros H. destruct e as [x [ | reason | v | err]]; simpl;
    try (exists c; by auto).
  - destruct (settle_caller_lookup (resolve v) x _ r c H)
      as (c' & H' & Hl & [Hc | [_ Hc]]); exists c';
      (split; [exact H'|]); (split; [exact Hl|]); intros Hs;
      [done | by rewrite Hc, resolve_settled].
  - destruct (settle_caller_lookup (reject err) x _ r c H)
      as (c' & H' & Hl & [Hc | [_ Hc]]); exists c';
      (split; [exact H'|]); (split; [exact Hl|]); intros Hs;
      [done | by rewrite Hc, reject_settled].
Qed.

Lemma settle_all_lookup (b : list (nat * Task)) (s : State) (r : nat)
  (c : Cell) :
  heap s !! r = Some c →
  ∃ c', heap (foldl settle_one s b) !! r = Some c' ∧ label c' = label c ∧
        (settled (caller c) = true → caller c' = caller c).
Proof.
  revert s c; induction b as [|e b IH]; intros s c H; simpl.
  - by exists c.
  - destruct (settle_one_lookup s e r c H) as (c1 & H1 & Hl1 & Hc1).
    destruct (IH _ _ H1) as (c2 & H2 & Hl2 & Hc2).
    exists c2. split; [exact H2|]. split; [congruence|].
    intros Hs. rewrite Hc2; [by apply Hc1|]. by rewrite Hc1.
Qed.

Lemma settle_all_length (b : list (nat * Task)) (s : State) :
  length (heap (foldl settle_one s b)) = length (heap s) ∧
  messagesQueued (foldl settle_one s b) = messagesQueued s ∧
  processing (foldl settle_one s b) = processing s ∧
  loop (foldl settle_one s b) = loop s.
Proof.
  revert s; induction b as [|e b IH]; intros s; simpl; [done|].
  destruct (IH (settle_one s e)) as (-> & -> & -> & ->).
  destruct e as [x [ | reason | v | err]]; simpl;
    rewrite ?settle_caller_length; done.
Qed.

(** What a step keeps of an item: its label always, and its promise once
    the promise is settled. *)
Lemma process_lookup (cfg : Config) (s s' : State) (r : nat) (c : Cell) :
  process cfg s = Some s' → heap s !! r = Some c →
  ∃ c', heap s' !! r = Some c' ∧ label c' = label c ∧ caller c' = caller c.
Proof.
  unfold process.
  destruct (processing s || bool_decide (queue s = [])).
  { intros [= <-] H. by exists c. }
  case_bool_decide as Hq; [discriminate|]. intros [= <-] H. simpl.
  destruct (processMessage_all_lookup (take (concurrency cfg) (queue s))
              (heap s) r c H) as (c' & H' & Hc & Hl).
  by exists c'.
Qed.

Lemma step_lookup (cfg : Config) (e : Event) (s s' : State) (r : nat)
  (c : Cell) :
  step cfg e s = Some s' → heap s !! r = Some c →
  ∃ c', heap s' !! r = Some c' ∧ label c' = label c ∧
        (settled (caller c) = true → caller c' = caller c).
Proof.
  intros Hstep H. destruct e as [o now rnd|i o|i| | | ]; simpl in Hstep.
  - unfold add in Hstep. simpl in Hstep.
    pose proof (lookup_app_l_Some _ [mkCell (mkMsg (pretty now +:+ rnd) o 0 now) Pending] _ _ H) as H1.
    destruct (processing s).
    + injection Hstep as <-. simpl. by exists c.
    + match type of Hstep with
      | snd <$> (?m ≫= _) = _ => destruct m as [s2|] eqn:E; [|discriminate]
      end.
      injection Hstep as <-.
      destruct (process_lookup cfg _ s2 r c E H1) as (c' & H' & Hl & Hc).
      exists c'. split; [exact H'|]. split; [exact Hl|]. by intros _.
  - unfold processMessage_sent in Hstep.
    destruct (loop s) as [|b|]; try discriminate.
    destruct (b !! i) as [[x [ | | | ]]|]; try discriminate.
    destruct o as [v|reason].
    + injection Hstep as <-. by exists c.
    + destruct (heap s !! x) as [cx|]; simpl in Hstep; [|discriminate].
      case_bool_decide as Hq; injection Hstep as <-; by exists c.
  - unfold processMessage_retry in Hstep.
    destruct (loop s) as [|b|]; try discriminate.
    destruct (b !! i) as [[x [ | | | ]]|]; try discriminate.
    destruct (heap s !! x) as [cx|]; simpl in Hstep; [|discriminate].
    injection Hstep as <-. by exists c.
  - unfold process_settled in Hstep.
    destruct (loop s) as [|b|]; try discriminate.
    destruct (forallb _ b); [|discriminate]. injection Hstep as <-.
    apply (settle_all_lookup b s r c H).
  - unfold process_finally in Hstep.
    destruct (loop s) as [|b|]; try discriminate.
    case_bool_decide as Hq.
    + injection Hstep as <-. by exists c.
    + destruct (process_lookup cfg _ s' r c Hstep H) as (c' & H' & Hl & Hc).
      exists c'. split; [exact H'|]. split; [exact Hl|]. by intros _.
  - injection Hstep as <-. by exists c.
Qed.

Lemma run_lookup (cfg : Config) (es : list Event) (s s' : State) (r : nat)
  (c : Cell) :
  run cfg es s = Some s' → heap s !! r = Some c →
  ∃ c', heap s' !! r = Some c' ∧ label c' = label c ∧
        (settled (caller c) = true → caller c' = caller c).
Proof.
  revert s c; induction es as [|e es IH]; intros s c; simpl.
  - intros [= <-] H. by exists c.
  - destruct (step cfg e s) as [s1|] eqn:E; simpl; [|discriminate].
    intros Hrun H.
    destruct (step_lookup cfg e s s1 r c E H) as (c1 & H1 & Hl1 & Hc1).
    destruct (IH s1 c1 Hrun H1) as (c2 & H2 & Hl2 & Hc2).
    exists c2. split; [exact H2|]. split; [congruence|].
    intros Hs. rewrite Hc2; [by apply Hc1|]. by rewrite Hc1.
Qed.

End Ledger.

(** X1: a promise handed out by [add] is settled at most once: along
    every run of the queue, from any state, a caller's promise that is
    fulfilled or rejected stays exactly as it is. *)
Theorem caller_settled_once
  (cfg : Queue.Config) (es : list Queue.Event) (s s' : Queue.State)
  (r : nat) (p : Promise Queue.SendResult) :
  Queue.run cfg es s = Some s' →
  Queue.caller_of s r = Some p →
  settled p = true →
  Queue.caller_of s' r = Some p.
Proof.
  unfold Queue.caller_of. intros Hrun Hp Hs.
  destruct (Queue.heap s !! r) as [c|] eqn:E; [|discriminate].
  injection Hp as <-.
  destruct (run_lookup cfg es s s' r c Hrun E) as (c' & -> & _ & Hc).
  simpl. by rewrite Hc.
Qed.

Lemma caller_settled_once_witness :
  Queue.caller_of Scenario.after_success 0
  = Some (Rejected (mkAppError "Message will be retried (1/3)" 500)).
Proof.
  apply (caller_settled_once Scenario.defaults Scenario.then_success
           Scenario.after_failure Scenario.after_success 0);
    vm_compute; reflexivity.
Defined.

(** X2: the queue never rewrites a message: along every run, the id, the
    options (recipient, content, priority) and the time of addition of an
    item are what [add] made them. *)
Theorem item_label_kept
  (cfg : Queue.Config) (es : list Queue.Event) (s s' : Queue.State)
  (r : nat) (c : Queue.Cell) :
  Queue.run cfg es s = Some s' →
  Queue.heap s !! r = Some c →
  ∃ c', Queue.heap s' !! r = Some c' ∧
        Queue.id (Queue.obj c') = Queue.id (Queue.obj c) ∧
        Queue.options (Queue.obj c') = Queue.options (Queue.obj c) ∧
        Queue.addedAt (Queue.obj c') = Queue.addedAt (Queue.obj c).
Proof.
  intros Hrun H.
  destruct (run_lookup cfg es s s' r c Hrun H) as (c' & H' & Hl & _).
  exists c'. split; [exact H'|].
  unfold Ledger.label in Hl. by injection Hl as -> -> ->.
Qed.

Lemma item_label_kept_witness :
  ∃ c', Queue.heap Scenario.after_success !! 0%nat = Some c' ∧
        Queue.id (Queue.obj c') = Queue.id (Queue.obj Cases.failed_once) ∧
        Queue.options (Queue.obj c') = Queue.options (Queue.obj Cases.failed_once) ∧
        Queue.addedAt (Queue.obj c') = Queue.addedAt (Queue.obj Cases.failed_once).
Proof.
  apply (item_label_kept Scenario.defaults Scenario.then_success
           Scenario.after_failure Scenario.after_success 0 Cases.failed_once);
    vm_compute; reflexivity.
Defined.

Section Attended.
Import Queue Bound Ledger.

(** ** One call of [process] at a time *)

Lemma init_attended : attended init.
Proof. split; done. Qed.

Lemma process_attended (cfg : Config) (s s' : State) :
  processing s = busy (loop s) → process cfg s = Some s' → attended s'.
Proof.
  intros Hb. unfold process.
  destruct (processing s) eqn:Hp; simpl.
  { intros [= <-]. split; [congruence | intros Hf; congruence]. }
  case_bool_decide as Hq.
  { intros [= <-]. split; [congruence | done]. }
  case_bool_decide as Hbatch; [discriminate|]. intros [= <-]. split; done.
Qed.

Lemma step_attended (cfg : Config) (e : Event) (s s' : State) :
  attended s → step cfg e s = Some s' → attended s'.
Proof.
  intros [Hb Hq] Hstep. destruct e as [o now rnd|i o|i| | | ]; simpl in Hstep.
  - unfold add in Hstep. simpl in Hstep.
    destruct (processing s) eqn:Hp.
    + injection Hstep as <-. split; simpl; [congruence | intros Hf; congruence].
    + match type of Hstep with
      | snd <$> (?m ≫= _) = _ => destruct m as [s2|] eqn:E; [|discriminate]
      end.
      injection Hstep as <-. refine (process_attended cfg _ s2 _ E).
      simpl. congruence.
  - unfold processMessage_sent in Hstep.
    destruct (loop s) as [|b|] eqn:Hl; try discriminate.
    destruct (b !! i) as [[x [ | | | ]]|]; try discriminate.
    destruct o as [v|reason].
    + injection Hstep as <-. split; simpl; [done | by rewrite Hb].
    + destruct (heap s !! x) as [cx|]; simpl in Hstep; [|discriminate].
      case_bool_decide as Hlt; injection Hstep as <-;
        (split; simpl; [done | by rewrite Hb]).
  - unfold processMessage_retry in Hstep.
    destruct (loop s) as [|b|] eqn:Hl; try discriminate.
    destruct (b !! i) as [[x [ | | | ]]|]; try discriminate.
    destruct (heap s !! x) as [cx|]; simpl in Hstep; [|discriminate].
    injection Hstep as <-. split; simpl; [done | by rewrite Hb].
  - unfold process_settled in Hstep.
    destruct (loop s) as [|b|] eqn:Hl; try discriminate.
    destruct (forallb _ b); [|discriminate]. injection Hstep as <-.
    destruct (settle_all_length b s) as (_ & _ & Hp & _).
    split; simpl; rewrite Hp, Hb; done.
  - unfold process_finally in Hstep.
    destruct (loop s) as [|b|] eqn:Hl; try discriminate.
    case_bool_decide as Hq'.
    + injection Hstep as <-. split; done.
    + by refine (process_attended cfg _ s' _ Hstep).
  - injection Hstep as <-. split; simpl; done.
Qed.

Lemma run_attended (cfg : Config) (es : list Event) (s s' : State) :
  attended s → run cfg es s = Some s' → attended s'.
Proof.
  revert s; induction es as [|e es IH]; intros s HI; simpl.
  - by intros [= <-].
  - destruct (step cfg e s) as [s1|] eqn:E; simpl; [|discriminate].
    apply IH. exact (step_attended cfg e s s1 HI E).
Qed.

(** ** The size of a batch *)

Lemma process_bounded (cfg : Config) (s s' : State) :
  batch_bounded cfg s → process cfg s = Some s' → batch_bounded cfg s'.
Proof.
  intros HB. unfold process.
  destruct (processing s || bool_decide (queue s = [])).
  { by intros [= <-]. }
  case_bool_decide as Hbatch; [discriminate|]. intros [= <-] b [= <-].
  rewrite length_fmap, length_take.
  destruct (take (concurrency cfg) (queue s)) eqn:E; [done|].
  apply (f_equal length) in E. rewrite length_take in E. simpl in E. lia.
Qed.

Lemma step_bounded (cfg : Config) (e : Event) (s s' : State) :
  batch_bounded cfg s → step cfg e s = Some s' → batch_bounded cfg s'.
Proof.
  intros HB Hstep. destruct e as [o now rnd|i o|i| | | ]; simpl in Hstep.
  - unfold add in Hstep. simpl in Hstep.
    destruct (processing s) eqn:Hp.
    + injection Hstep as <-. exact HB.
    + match type of Hstep with
      | snd <$> (?m ≫= _) = _ => destruct m as [s2|] eqn:E; [|discriminate]
      end.
      injection Hstep as <-. refine (process_bounded cfg _ s2 _ E). exact HB.
  - unfold processMessage_sent in Hstep.
    destruct (loop s) as [|b|] eqn:Hl; try discriminate.
    pose proof (HB b Hl) as Hlen.
    destruct (b !! i) as [[x [ | | | ]]|]; try discriminate.
    destruct o as [v|reason].
    + injection Hstep as <-. intros b' [= <-]. by rewrite length_insert.
    + destruct (heap s !! x) as [cx|]; simpl in Hstep; [|discriminate].
      case_bool_decide as Hlt; injection Hstep as <-; intros b' [= <-];
        by rewrite length_insert.
  - unfold processMessage_retry in Hstep.
    destruct (loop s) as [|b|] eqn:Hl; try discriminate.
    pose proof (HB b Hl) as Hlen.
    destruct (b !! i) as [[x [ | | | ]]|]; try discriminate.
    destruct (heap s !! x) as [cx|]; simpl in Hstep; [|discriminate].
    injection Hstep as <-. intros b' [= <-]. by rewrite length_insert.
  - unfold process_settled in Hstep.
    destruct (loop s) as [|b|] eqn:Hl; try discriminate.
    destruct (forallb _ b); [|discriminate]. injection Hstep as <-.
    intros b'; simpl; discriminate.
  - unfold process_finally in Hstep.
    destruct (loop s) as [|b|] eqn:Hl; try discriminate.
    case_bool_decide as Hq'.
    + injection Hstep as <-. intros b'; simpl; discriminate.
    + refine (process_bounded cfg _ s' _ Hstep).
      intros b'; simpl; discriminate.
  - injection Hstep as <-. exact HB.
Qed.

Lemma run_bounded (cfg : Config) (es : list Event) (s s' : State) :
  batch_bounded cfg s → run cfg es s = Some s' → batch_bounded cfg s'.
Proof.
  revert s; induction es as [|e es IH]; intros s HI; simpl.
  - by intros [= <-].
  - destruct (step cfg e s) as [s1|] eqn:E; simpl; [|discriminate].
    apply IH. exact (step_bounded cfg e s s1 HI E).
Qed.

End Attended.

(** X3: in every state the queue reaches from its start, the flag
    [processing] tells whether a call of [process] is under way, and the
    backlog is never left unattended: when [processing] is false no call
    of [process] is suspended and the backlog is empty, so [getStats]
    then reports [queued] as 0. *)
Theorem idle_queue_is_empty
  (cfg : Queue.Config) (es : list Queue.Event) (s : Queue.State) :
  Queue.run cfg es Queue.init = Some s →
  if Queue.processing s
  then Queue.loop s ≠ Queue.Idle
  else Queue.loop s = Queue.Idle ∧ Queue.queue s = [] ∧
       Queue.queued (Queue.getStats s) = 0.
Proof.
  intros Hrun.
  destruct (run_attended cfg es _ s init_attended Hrun) as [Hb Hq].
  destruct (Queue.processing s) eqn:Hp.
  - destruct (Queue.loop s); [discriminate|done|done].
  - split; [by destruct (Queue.loop s)|].
    split; [by apply Hq|]. simpl. by rewrite Hq.
Qed.

Lemma idle_queue_is_empty_witness :
  if Queue.processing Scenario.after_success
  then Queue.loop Scenario.after_success ≠ Queue.Idle
  else Queue.loop Scenario.after_success = Queue.Idle ∧
       Queue.queue Scenario.after_success = [] ∧
       Queue.queued (Queue.getStats Scenario.after_success) = 0.
Proof.
  apply (idle_queue_is_empty Scenario.defaults
           (Scenario.first_failure ++ Scenario.then_success)).
  vm_compute; reflexivity.
Defined.

(** X4: in every state the queue reaches from its start, the batch in
    flight holds at least one item and at most [concurrency] items. *)
Theorem batch_within_concurrency
  (cfg : Queue.Config) (es : list Queue.Event) (s : Queue.State)
  (b : list (nat * Queue.Task)) :
  Queue.run cfg es Queue.init = Some s →
  Queue.loop s = Queue.AwaitBatch b →
  (1 ≤ length b ≤ Queue.concurrency cfg)%nat.
Proof.
  intros Hrun. apply (run_bounded cfg es Queue.init s); [|exact Hrun].
  intros b'; simpl; discriminate.
Qed.

Lemma batch_within_concurrency_witness :
  (1 ≤ length [(0%nat, Queue.TRejected
                         (mkAppError "Message will be retried (1/3)" 500))]
   ≤ Queue.concurrency Scenario.defaults)%nat.
Proof.
  apply (batch_within_concurrency Scenario.defaults (take 3 Scenario.first_failure)
           (default Queue.init
              (Queue.run Scenario.defaults (take 3 Scenario.first_failure)
                         Queue.init)));
    vm_compute; reflexivity.
Defined.

Section Account.
Import Queue Bound Ledger.

(** ** Counting *)

Lemma process_count (cfg : Config) (s s' : State) :
  process cfg s = Some s' →
  messagesQueued s' = messagesQueued s ∧
  length (heap s') = length (heap s) ∧
  messagesSent s' = messagesSent s ∧ messagesFailed s' = messagesFailed s.
Proof.
  unfold process.
  destruct (processing s || bool_decide (queue s = [])).
  { by intros [= <-]. }
  case_bool_decide as Hbatch; [discriminate|]. intros [= <-]. simpl.
  by rewrite processMessage_all_length.
Qed.

Lemma settle_all_counters (b : list (nat * Task)) (s : State) :
  messagesSent s ≤ messagesSent (foldl settle_one s b) ∧
  messagesFailed s ≤ messagesFailed (foldl settle_one s b).
Proof.
  revert s; induction b as [|e b IH]; intros s; simpl; [lia|].
  destruct (IH (settle_one s e)) as [H1 H2].
  destruct e as [x [ | reason | v | err]]; simpl in *; lia.
Qed.

Lemma step_count (cfg : Config) (e : Event) (s s' : State) :
  step cfg e s = Some s' →
  messagesQueued s' = messagesQueued s + (if is_add e then 1 else 0) ∧
  length (heap s') = (length (heap s) + if is_add e then 1 else 0)%nat ∧
  messagesSent s ≤ messagesSent s' ∧ messagesFailed s ≤ messagesFailed s'.
Proof.
  intros Hstep. destruct e as [o now rnd|i o|i| | | ]; simpl in Hstep; simpl.
  - unfold add in Hstep. simpl in Hstep.
    destruct (processing s) eqn:Hp.
    + injection Hstep as <-. simpl. rewrite length_app. simpl. lia.
    + match type of Hstep with
      | snd <$> (?m ≫= _) = _ => destruct m as [s2|] eqn:E; [|discriminate]
      end.
      injection Hstep as <-.
      destruct (process_count cfg _ s2 E) as (-> & -> & -> & ->). simpl.
      rewrite length_app. simpl. lia.
  - unfold processMessage_sent in Hstep.
    destruct (loop s) as [|b|] eqn:Hl; try discriminate.
    destruct (b !! i) as [[x [ | | | ]]|]; try discriminate.
    destruct o as [v|reason].
    + injection Hstep as <-. simpl. lia.
    + destruct (heap s !! x) as [cx|]; simpl in Hstep; [|discriminate].
      case_bool_decide as Hlt; injection Hstep as <-; simpl; lia.
  - unfold processMessage_retry in Hstep.
    destruct (loop s) as [|b|] eqn:Hl; try discriminate.
    destruct (b !! i) as [[x [ | | | ]]|]; try discriminate.
    destruct (heap s !! x) as [cx|]; simpl in Hstep; [|discriminate].
    injection Hstep as <-. simpl. lia.
  - unfold process_settled in Hstep.
    destruct (loop s) as [|b|] eqn:Hl; try discriminate.
    destruct (forallb _ b); [|discriminate]. injection Hstep as <-.
    destruct (settle_all_length b s) as (Hh & Hq & _ & _).
    destruct (settle_all_counters b s) as [H1 H2]. simpl. lia.
  - unfold process_finally in Hstep.
    destruct (loop s) as [|b|] eqn:Hl; try discriminate.
    case_bool_decide as Hq'.
    + injection Hstep as <-. simpl. lia.
    + destruct (process_count cfg _ s' Hstep) as (-> & -> & -> & ->).
      simpl. lia.
  - injection Hstep as <-. simpl. lia.
Qed.

Lemma run_count (cfg : Config) (es : list Event) (s s' : State) :
  run cfg es s = Some s' →
  messagesQueued s' = messagesQueued s + Z.of_nat (added es) ∧
  length (heap s') = (length (heap s) + added es)%nat ∧
  messagesSent s ≤ messagesSent s' ∧ messagesFailed s ≤ messagesFailed s'.
Proof.
  revert s; induction es as [|e es IH]; intros s; simpl.
  - intros [= <-]. lia.
  - destruct (step cfg e s) as [s1|] eqn:E; simpl; [|discriminate].
    intros Hrun. destruct (IH s1 Hrun) as (H1 & H2 & H3 & H4).
    destruct (step_count cfg e s s1 E) as (G1 & G2 & G3 & G4).
    destruct (is_add e); lia.
Qed.

Lemma length_below (l : list nat) (n : nat) :
  NoDup l → Forall (λ r, (r < n)%nat) l → (length l ≤ n)%nat.
Proof.
  intros Hnd Hall.
  assert (l ⊆+ seq 0 n) as Hsub.
  { apply NoDup_submseteq; [exact Hnd|].
    intros x Hx. rewrite Forall_forall in Hall.
    apply elem_of_seq. specialize (Hall x Hx). lia. }
  apply submseteq_length in Hsub. by rewrite length_seq in Hsub.
Qed.

Lemma owned_of_below (h : list Cell) (cfg : Config) (b : list (nat * Task)) :
  Forall (retry_ok cfg h) b → Forall (λ r, (r < length h)%nat) (owned_of b).
Proof.
  intros Hb. apply Forall_forall. intros r Hr.
  destruct (owned_of_elem b r Hr) as [t Ht].
  rewrite Forall_forall in Hb. destruct (Hb _ Ht) as (a & Ha & _).
  exact (attempts_at_lt h r a Ha).
Qed.

End Account.

(** X5: the statistics add up.  In every state the queue reaches from its
    start, [total] is the number of calls of [add] so far, which is also
    the number of items created; [sent] and [failed] are not negative;
    and the backlog together with the items still held by a call of
    [processMessage] never outnumbers [total]. *)
Theorem stats_account
  (cfg : Queue.Config) (es : list Queue.Event) (s : Queue.State) :
  Queue.run cfg es Queue.init = Some s →
  Queue.total (Queue.getStats s) = Z.of_nat (Ledger.added es) ∧
  length (Queue.heap s) = Ledger.added es ∧
  0 ≤ Queue.sent (Queue.getStats s) ∧
  0 ≤ Queue.failed (Queue.getStats s) ∧
  0 ≤ Queue.queued (Queue.getStats s) ∧
  Queue.queued (Queue.getStats s)
    + Z.of_nat (length (Bound.owned_of (Bound.batch_of (Queue.loop s))))
    ≤ Queue.total (Queue.getStats s).
Proof.
  intros Hrun.
  destruct (run_count cfg es _ s Hrun) as (Hq & Hh & Hs & Hf). simpl in *.
  pose proof (run_inv cfg es _ s (init_inv cfg) Hrun) as [Hnd Hqu _ Hb].
  split; [lia|]. split; [lia|]. split; [lia|]. split; [lia|]. split; [lia|].
  assert (length (Queue.queue s ++ Bound.owned_of (Bound.batch_of (Queue.loop s)))
          ≤ length (Queue.heap s))%nat as Hlen.
  { apply length_below; [exact Hnd|]. apply Forall_app. split.
    - eapply Forall_impl; [exact Hqu|].
      intros r (a & Ha & _). exact (attempts_at_lt _ r a Ha).
    - exact (owned_of_below _ cfg _ Hb). }
  rewrite length_app in Hlen. lia.
Qed.

Lemma stats_account_witness :
  Queue.total (Queue.getStats Scenario.after_success)
    = Z.of_nat (Ledger.added (Scenario.first_failure ++ Scenario.then_success)) ∧
  length (Queue.heap Scenario.after_success)
    = Ledger.added (Scenario.first_failure ++ Scenario.then_success) ∧
  0 ≤ Queue.sent (Queue.getStats Scenario.after_success) ∧
  0 ≤ Queue.failed (Queue.getStats Scenario.after_success) ∧
  0 ≤ Queue.queued (Queue.getStats Scenario.after_success) ∧
  Queue.queued (Queue.getStats Scenario.after_success)
    + Z.of_nat (length (Bound.owned_of
                          (Bound.batch_of (Queue.loop Scenario.after_success))))
    ≤ Queue.total (Queue.getStats Scenario.after_success).
Proof.
  apply (stats_account Scenario.defaults
           (Scenario.first_failure ++ Scenario.then_success)).
  vm_compute; reflexivity.
Defined.

Section Order.
Import Queue Bound Ledger.

(** ** The order of dispatch *)

Lemma fst_sending (l : list nat) : ((λ r, (r, TSending)) <$> l).*1 = l.
Proof. induction l as [|x l IH]; [done|]. cbn. f_equal. exact IH. Qed.

Lemma fst_insert (b : list (nat * Task)) (i r : nat) (t t' : Task) :
  b !! i = Some (r, t) → (<[i := (r, t')]> b).*1 = b.*1.
Proof.
  intros H. rewrite list_fmap_insert. simpl.
  apply list_insert_id. by rewrite list_lookup_fmap, H.
Qed.

Lemma process_in_order (cfg : Config) (s s' : State) :
  in_order s → process cfg s = Some s' → in_order s'.
Proof.
  intros [Hs Hb]. unfold process.
  destruct (processing s || bool_decide (queue s = [])).
  { by intros [= <-]. }
  case_bool_decide as Hbatch; [discriminate|]. intros [= <-].
  unfold in_order, dispatched. simpl.
  rewrite fst_sending, take_drop, processMessage_all_length.
  split.
  - by apply StronglySorted_app_1_r in Hs.
  - by apply Forall_app in Hb as [_ ?].
Qed.

Lemma step_in_order (cfg : Config) (e : Event) (s s' : State) :
  in_order s → is_retry e = false → step cfg e s = Some s' → in_order s'.
Proof.
  intros [Hs Hb] He Hstep.
  destruct e as [o now rnd|i o|i| | | ]; simpl in Hstep; try discriminate.
  - assert (in_order (enqueue o now rnd s).2) as H1.
    { unfold in_order, dispatched in *. simpl. rewrite (assoc_L (++)).
      split.
      - apply StronglySorted_app_2; [|exact Hs|repeat constructor].
        intros x1 x2 Hx1 ->%list_elem_of_singleton.
        rewrite Forall_forall in Hb. by apply Hb.
      - rewrite length_app. simpl. apply Forall_app. split.
        + eapply Forall_impl; [exact Hb|]. intros x Hx. simpl in Hx. lia.
        + apply Forall_singleton. lia. }
    unfold add in Hstep. destruct (enqueue o now rnd s) as [r1 s1].
    simpl in H1. destruct (processing s1).
    + by injection Hstep as <-.
    + destruct (process cfg s1) as [s2|] eqn:E; [|discriminate].
      injection Hstep as <-. exact (process_in_order cfg s1 s2 H1 E).
  - unfold processMessage_sent in Hstep. unfold in_order, dispatched in *.
    destruct (loop s) as [|b|] eqn:Hl; try discriminate.
    destruct (b !! i) as [[x [ | | | ]]|] eqn:Hi; try discriminate.
    destruct o as [v|reason].
    + injection Hstep as <-. simpl in *. by rewrite (fst_insert b i x _ _ Hi).
    + destruct (heap s !! x) as [cx|]; simpl in Hstep; [|discriminate].
      case_bool_decide as Hlt; injection Hstep as <-; simpl in *;
        by rewrite (fst_insert b i x _ _ Hi).
  - unfold process_settled in Hstep. unfold in_order, dispatched in *.
    destruct (loop s) as [|b|] eqn:Hl; try discriminate.
    destruct (forallb _ b); [|discriminate]. injection Hstep as <-.
    destruct (settle_all_length b s) as (Hh & _ & _ & _).
    destruct (settle_all_keeps b s) as [Hq _].
    simpl in *. rewrite Hq, Hh. split.
    + by apply StronglySorted_app_1_r in Hs.
    + by apply Forall_app in Hb as [_ ?].
  - unfold process_finally in Hstep.
    destruct (loop s) as [|b|] eqn:Hl; try discriminate.
    assert (in_order (set_loop Idle (set_processing false s))) as H1.
    { unfold in_order, dispatched in *. rewrite Hl in Hs, Hb. by simpl in *. }
    case_bool_decide as Hq'.
    + by injection Hstep as <-.
    + exact (process_in_order cfg _ s' H1 Hstep).
  - injection Hstep as <-. unfold in_order, dispatched in *. simpl.
    rewrite app_nil_r. split.
    + by apply StronglySorted_app_1_l in Hs.
    + by apply Forall_app in Hb as [? _].
Qed.

Lemma run_in_order (cfg : Config) (es : list Event) (s s' : State) :
  in_order s → Forall (λ e, is_retry e = false) es →
  run cfg es s = Some s' → in_order s'.
Proof.
  revert s; induction es as [|e es IH]; intros s HI Hes; simpl.
  - by intros [= <-].
  - apply Forall_cons in Hes as [He Hes].
    destruct (step cfg e s) as [s1|] eqn:E; simpl; [|discriminate].
    apply IH; [|exact Hes]. exact (step_in_order cfg e s s1 HI He E).
Qed.

Lemma init_in_order : in_order init.
Proof. split; simpl; constructor. Qed.

End Order.

(** X6: first attempts are first in, first out.  In a run from the start
    in which no retry comes back, the items in flight followed by the
    backlog are in the order in which [add] created them: every item in
    flight was added before every item of the backlog, and the backlog
    itself is in order of addition. *)
Theorem dispatch_in_order_of_addition
  (cfg : Queue.Config) (es : list Queue.Event) (s : Queue.State) :
  Forall (λ e, Ledger.is_retry e = false) es →
  Queue.run cfg es Queue.init = Some s →
  StronglySorted lt (Ledger.dispatched s ++ Queue.queue s).
Proof.
  intros Hes Hrun.
  exact (proj1 (run_in_order cfg es _ s init_in_order Hes Hrun)).
Qed.

Lemma dispatch_in_order_of_addition_witness :
  StronglySorted lt
    (Ledger.dispatched Cases.steady_state ++ Queue.queue Cases.steady_state).
Proof.
  apply (dispatch_in_order_of_addition Cases.pairwise Cases.steady).
  - repeat constructor.
  - vm_compute; reflexivity.
Defined.

Section Journey.
Import Queue Bound Ledger Cases.

(** ** One item from [add] to its settlement *)

(** [add] on an idle queue dispatches the new item at once. *)
Lemma add_idle (cfg : Config) (o : Options) (now : Z) (rnd : string)
  (s : State) :
  processing s = false → queue s = [] → (1 ≤ concurrency cfg)%nat →
  add cfg o now rnd s
  = Some (length (heap s),
          mkState [] true (messagesSent s) (messagesQueued s + 1)
            (messagesFailed s)
            (heap s ++ [mkCell (tried o now rnd) Pending])
            (AwaitBatch [(length (heap s), TSending)])).
Proof.
  intros Hp Hq Hc. unfold add, enqueue, process. simpl.
  rewrite Hp, Hq. simpl.
  destruct (concurrency cfg) as [|c]; [lia|].
  cbn [take drop app]. rewrite take_nil, drop_nil. simpl.
  unfold processMessage, set_loop, set_heap, set_queue, set_processing. simpl.
  rewrite lookup_app_r, Nat.sub_diag by lia. simpl.
  rewrite insert_app_r_alt, Nat.sub_diag by lia. reflexivity.
Qed.

Lemma lookup_last_cell (h : list Cell) (c : Cell) :
  (h ++ [c]) !! length h = Some c.
Proof. by rewrite lookup_app_r, Nat.sub_diag by lia. Qed.

Lemma insert_last_cell (h : list Cell) (c c' : Cell) :
  <[length h := c']> (h ++ [c]) = h ++ [c'].
Proof. by rewrite insert_app_r_alt, Nat.sub_diag by lia. Qed.

End Journey.

(** X7: the round trip of a message that is sent at the first try.  On an
    idle queue with a concurrency of at least one, [add] dispatches the
    item at once with a pending promise; when its send function fulfils
    with [v] and the batch is settled, the caller's promise is fulfilled
    with exactly [v], the item has made one attempt, [sent] is one more,
    [failed] is unchanged and the backlog is empty. *)
Theorem first_try_success
  (cfg : Queue.Config) (o : Queue.Options) (now : Z) (rnd : string)
  (v : Queue.SendResult) (s : Queue.State) :
  Queue.processing s = false → Queue.queue s = [] →
  (1 ≤ Queue.concurrency cfg)%nat →
  ∃ s1 s2,
    Queue.add cfg o now rnd s = Some (length (Queue.heap s), s1) ∧
    Queue.caller_of s1 (length (Queue.heap s)) = Some Pending ∧
    Queue.run cfg [Queue.EvSendDone 0 (Queue.SendOk v); Queue.EvBatchSettled] s1
      = Some s2 ∧
    Queue.caller_of s2 (length (Queue.heap s)) = Some (Fulfilled v) ∧
    Queue.attempts_of s2 (length (Queue.heap s)) = Some 1 ∧
    Queue.messagesSent s2 = Queue.messagesSent s + 1 ∧
    Queue.messagesFailed s2 = Queue.messagesFailed s ∧
    Queue.queue s2 = [].
Proof.
  intros Hp Hq Hc. eexists _, _.
  split; [exact (add_idle cfg o now rnd s Hp Hq Hc)|].
  unfold Queue.caller_of, Queue.attempts_of. simpl.
  rewrite lookup_last_cell. split; [reflexivity|].
  unfold Queue.settle_caller. simpl.
  rewrite lookup_last_cell, insert_last_cell. simpl.
  split; [reflexivity|]. simpl. rewrite lookup_last_cell. done.
Qed.

Lemma first_try_success_witness :
  ∃ s1 s2,
    Queue.add Scenario.defaults (Scenario.opts "one") 100 "k3j9x0a" Queue.init
      = Some (length (Queue.heap Queue.init), s1) ∧
    Queue.caller_of s1 (length (Queue.heap Queue.init)) = Some Pending ∧
    Queue.run Scenario.defaults
      [Queue.EvSendDone 0 (Queue.SendOk (Queue.mkSendResult true "3EB0" 17));
       Queue.EvBatchSettled] s1
      = Some s2 ∧
    Queue.caller_of s2 (length (Queue.heap Queue.init))
      = Some (Fulfilled (Queue.mkSendResult true "3EB0" 17)) ∧
    Queue.attempts_of s2 (length (Queue.heap Queue.init)) = Some 1 ∧
    Queue.messagesSent s2 = Queue.messagesSent Queue.init + 1 ∧
    Queue.messagesFailed s2 = Queue.messagesFailed Queue.init ∧
    Queue.queue s2 = [].
Proof.
  apply (first_try_success Scenario.defaults (Scenario.opts "one") 100
           "k3j9x0a" (Queue.mkSendResult true "3EB0" 17) Queue.init);
    [reflexivity | reflexivity | simpl; lia].
Defined.

(** X8: without retries the first failure is final.  On an idle queue
    with a concurrency of at least one and [maxRetries] at most 1, an item
    whose send function throws [reason] is not put back: after the batch
    is settled its promise is rejected with status 500 and the message
    "Failed to send message after 1 attempts: [reason]", [failed] is one
    more, [sent] is unchanged and the backlog is empty. *)
Theorem first_failure_final
  (cfg : Queue.Config) (o : Queue.Options) (now : Z) (rnd reason : string)
  (s : Queue.State) :
  Queue.processing s = false → Queue.queue s = [] →
  (1 ≤ Queue.concurrency cfg)%nat →
  Queue.maxRetries cfg ≤ 1 →
  ∃ s1 s2,
    Queue.add cfg o now rnd s = Some (length (Queue.heap s), s1) ∧
    Queue.run cfg [Queue.EvSendDone 0 (Queue.SendErr reason);
                   Queue.EvBatchSettled] s1
      = Some s2 ∧
    Queue.caller_of s2 (length (Queue.heap s))
      = Some (Rejected (mkAppError
                ("Failed to send message after 1 attempts: " +:+ reason) 500)) ∧
    Queue.messagesFailed s2 = Queue.messagesFailed s + 1 ∧
    Queue.messagesSent s2 = Queue.messagesSent s ∧
    Queue.queue s2 = [].
Proof.
  intros Hp Hq Hc Hm. eexists _, _.
  split; [exact (add_idle cfg o now rnd s Hp Hq Hc)|].
  unfold Queue.caller_of. simpl. unfold Queue.processMessage_sent. simpl.
  rewrite lookup_last_cell. simpl. unfold Cases.tried at 1. simpl.
  rewrite bool_decide_eq_false_2 by lia. simpl.
  unfold Queue.process_settled. simpl.
  unfold Queue.settle_caller. simpl.
  rewrite lookup_last_cell, insert_last_cell. simpl.
  split; [reflexivity|]. simpl. rewrite lookup_last_cell. done.
Qed.

Lemma first_failure_final_witness :
  ∃ s1 s2,
    Queue.add Scenario.no_retries (Scenario.opts "one") 100 "k3j9x0a" Queue.init
      = Some (length (Queue.heap Queue.init), s1) ∧
    Queue.run Scenario.no_retries
      [Queue.EvSendDone 0 (Queue.SendErr "socket closed");
       Queue.EvBatchSettled] s1
      = Some s2 ∧
    Queue.caller_of s2 (length (Queue.heap Queue.init))
      = Some (Rejected (mkAppError
                ("Failed to send message after 1 attempts: " +:+ "socket closed")
                500)) ∧
    Queue.messagesFailed s2 = Queue.messagesFailed Queue.init + 1 ∧
    Queue.messagesSent s2 = Queue.messagesSent Queue.init ∧
    Queue.queue s2 = [].
Proof.
  apply (first_failure_final Scenario.no_retries (Scenario.opts "one") 100
           "k3j9x0a" "socket closed" Queue.init);
    [reflexivity | reflexivity | simpl; lia | simpl; lia].
Defined.

(** X9: with retries configured, the first failure already reaches the
    caller.  On an idle queue with a concurrency of at least one and
    [maxRetries] above 1, an item whose first send throws is put back at
    the front of the backlog after the retry delay, and when the batch is
    settled its promise is rejected with status 500 and the message
    "Message will be retried (1/[maxRetries])" and [failed] is one more,
    although the item is still to be sent again. *)
Theorem first_failure_retried
  (cfg : Queue.Config) (o : Queue.Options) (now : Z) (rnd reason : string)
  (s : Queue.State) :
  Queue.processing s = false → Queue.queue s = [] →
  (1 ≤ Queue.concurrency cfg)%nat →
  1 < Queue.maxRetries cfg →
  ∃ s1 s2,
    Queue.add cfg o now rnd s = Some (length (Queue.heap s), s1) ∧
    Queue.run cfg [Queue.EvSendDone 0 (Queue.SendErr reason);
                   Queue.EvRetryElapsed 0; Queue.EvBatchSettled] s1
      = Some s2 ∧
    Queue.caller_of s2 (length (Queue.heap s))
      = Some (Rejected (mkAppError
                ("Message will be retried (1/"
                 +:+ pretty (Queue.maxRetries cfg) +:+ ")") 500)) ∧
    Queue.messagesFailed s2 = Queue.messagesFailed s + 1 ∧
    Queue.messagesSent s2 = Queue.messagesSent s ∧
    Queue.queue s2 = [length (Queue.heap s)] ∧
    Queue.processing s2 = true.
Proof.
  intros Hp Hq Hc Hm. eexists _, _.
  split; [exact (add_idle cfg o now rnd s Hp Hq Hc)|].
  unfold Queue.caller_of. simpl. unfold Queue.processMessage_sent. simpl.
  rewrite lookup_last_cell. simpl. unfold Cases.tried at 1. simpl.
  rewrite bool_decide_eq_true_2 by lia. simpl.
  unfold Queue.processMessage_retry. simpl.
  rewrite lookup_last_cell. simpl.
  unfold Queue.process_settled. simpl.
  unfold Queue.settle_caller. simpl.
  rewrite lookup_last_cell, insert_last_cell. simpl.
  split; [reflexivity|]. simpl. rewrite lookup_last_cell. done.
Qed.

Lemma first_failure_retried_witness :
  ∃ s1 s2,
    Queue.add Scenario.defaults (Scenario.opts "one") 100 "k3j9x0a" Queue.init
      = Some (length (Queue.heap Queue.init), s1) ∧
    Queue.run Scenario.defaults
      [Queue.EvSendDone 0 (Queue.SendErr "socket closed");
       Queue.EvRetryElapsed 0; Queue.EvBatchSettled] s1
      = Some s2 ∧
    Queue.caller_of s2 (length (Queue.heap Queue.init))
      = Some (Rejected (mkAppError
                ("Message will be retried (1/"
                 +:+ pretty (Queue.maxRetries Scenario.defaults) +:+ ")") 500)) ∧
    Queue.messagesFailed s2 = Queue.messagesFailed Queue.init + 1 ∧
    Queue.messagesSent s2 = Queue.messagesSent Queue.init ∧
    Queue.queue s2 = [length (Queue.heap Queue.init)] ∧
    Queue.processing s2 = true.
Proof.
  apply (first_failure_retried Scenario.defaults (Scenario.opts "one") 100
           "k3j9x0a" "socket closed" Queue.init);
    [reflexivity | reflexivity | simpl; lia | simpl; lia].
Defined.

(** X10: a retry goes first.  When the retry delay of an item ends, the
    batch is settled and the pause between batches is over, with nothing
    else in between, the next batch starts with that item. *)
Theorem retried_item_heads_next_batch
  (cfg : Queue.Config) (i r : nat) (t : Queue.Task)
  (b : list (nat * Queue.Task)) (s s1 s2 s3 : Queue.State) :
  Queue.loop s = Queue.AwaitBatch b →
  b !! i = Some (r, t) →
  Queue.step cfg (Queue.EvRetryElapsed i) s = Some s1 →
  Queue.step cfg Queue.EvBatchSettled s1 = Some s2 →
  Queue.step cfg Queue.EvDelayElapsed s2 = Some s3 →
  ∃ rest, Queue.loop s3 = Queue.AwaitBatch ((r, Queue.TSending) :: rest) ∧
          Queue.processing s3 = true.
Proof.
  simpl. unfold Queue.processMessage_retry, Queue.process_settled,
    Queue.process_finally.
  intros Hl Hi H1 H2 H3. rewrite Hl, Hi in H1.
  destruct t as [ | reason | | ]; try discriminate.
  destruct (Queue.heap s !! r) as [c|]; simpl in H1; [|discriminate].
  injection H1 as <-. simpl in H2.
  destruct (forallb _ _); [|discriminate]. injection H2 as <-.
  simpl in H3.
  destruct (settle_all_keeps
              (<[i:=(r, Queue.TRejected (Queue.retry_error cfg (Queue.obj c)))]> b)
              (Queue.set_loop
                 (Queue.AwaitBatch
                    (<[i:=(r, Queue.TRejected (Queue.retry_error cfg (Queue.obj c)))]> b))
                 (Queue.set_queue (r :: Queue.queue s) s))) as [Hq _].
  simpl in Hq. rewrite Hq in H3.
  rewrite bool_decide_eq_false_2 in H3 by discriminate.
  unfold Queue.process in H3. simpl in H3. rewrite Hq in H3.
  rewrite bool_decide_eq_false_2 in H3 by discriminate. simpl in H3.
  destruct (Queue.concurrency cfg) as [|n]; simpl in H3; [discriminate|].
  injection H3 as <-. simpl. eexists. split; reflexivity.
Qed.

Lemma retried_item_heads_next_batch_witness :
  ∃ rest,
    Queue.loop
      (default Queue.init
         (Queue.run Scenario.defaults
            [Queue.EvRetryElapsed 0; Queue.EvBatchSettled; Queue.EvDelayElapsed]
            Cases.failing))
    = Queue.AwaitBatch ((0%nat, Queue.TSending) :: rest) ∧
    Queue.processing
      (default Queue.init
         (Queue.run Scenario.defaults
            [Queue.EvRetryElapsed 0; Queue.EvBatchSettled; Queue.EvDelayElapsed]
            Cases.failing))
    = true.
Proof.
  apply (retried_item_heads_next_batch Scenario.defaults 0 0
           (Queue.TRetryDelay "Failed to send message: socket closed")
           [(0%nat, Queue.TRetryDelay "Failed to send message: socket closed")]
           Cases.failing
           (default Queue.init
              (Queue.run Scenario.defaults [Queue.EvRetryElapsed 0] Cases.failing))
           (default Queue.init
              (Queue.run Scenario.defaults
                 [Queue.EvRetryElapsed 0; Queue.EvBatchSettled] Cases.failing)));
    vm_compute; reflexivity.
Defined.

(** * Further properties of the session service *)

Section Lifecycle.
Import Service Lifecycle.

Lemma init_ok_mono (b b' : bool) (n n' : nat) (t t' : Z) (i : Init) :
  (b = true → b' = true) → (n ≤ n')%nat → t ≤ t' →
  init_ok b n t i → init_ok b' n' t' i.
Proof.
  unfold init_ok. intros Hb Hn Ht.
  destruct (stage i); [done| | |done].
  - intros [? ?]. auto.
  - intros (? & ? & ? & ?). repeat split; auto; lia.
Qed.

Lemma init_sound : sound init.
Proof. constructor; simpl; done. Qed.

Lemma reset_sound (w : World) : sound w → sound (reset w).
Proof. intros [H1 H2 H3 H4]. constructor; simpl; try done. Qed.

Lemma emit_sound (e : Effect) (w : World) : sound w → sound (emit e w).
Proof. intros [H1 H2 H3 H4]. by constructor. Qed.

Lemma create_client_ok (w : World) :
  Forall (init_ok (has_client w) (clients w) (now w)) (inits w) →
  Forall (init_ok true (S (clients w)) (now w)) (inits w).
Proof.
  intros H. eapply Forall_impl; [exact H|].
  intros i. apply init_ok_mono; [done | lia | lia].
Qed.

Lemma connect_sound (w : World) : sound w → sound (connect w).2.
Proof.
  intros Hs. pose proof Hs as [H1 H2 H3 H4]. unfold connect.
  destruct (initializationPromise (fields w)) as [p|] eqn:Hp.
  { exact Hs. }
  unfold _initialize. destruct (mongoReady w); simpl.
  - constructor; simpl.
    + intros c [= <-]. lia.
    + intros p [= <-]. rewrite length_app. simpl. lia.
    + done.
    + apply Forall_app. split; [by apply create_client_ok|].
      by apply Forall_singleton.
  - constructor; simpl.
    + exact H1.
    + intros p [= <-]. rewrite length_app. simpl. lia.
    + exact H3.
    + apply Forall_app. split; [exact H4|]. by apply Forall_singleton.
Qed.

Lemma destroy_sound (x : External) (w : World) :
  sound w → sound (destroy x w).2.
Proof.
  intros H. unfold destroy.
  destruct (isInitialized (fields w)), (client (fields w)); try done.
  destruct x; simpl; [by apply reset_sound, emit_sound | by apply emit_sound].
Qed.

Lemma logout_sound (x : External) (w : World) :
  sound w → sound (logout x w).2.
Proof.
  intros H. unfold logout.
  destruct (isInitialized (fields w)), (client (fields w)); try done.
  destruct x; simpl; [by apply reset_sound, emit_sound | by apply emit_sound].
Qed.

Lemma init_failed_sound (p : nat) (reason : string) (w : World) :
  sound w → sound (init_failed p reason w).
Proof.
  intros [H1 H2 H3 H4].
  constructor; simpl; [exact H1 | done | done | by apply Forall_insert].
Qed.

Lemma waits_for_found (c : nat) (l : list Init) (b : bool) (n : nat) (t : Z) :
  existsb (waits_for c) l = true → Forall (init_ok b n t) l → b = true.
Proof.
  intros Hex Hall. apply existsb_exists in Hex as (i & Hi & Hw).
  apply list_elem_of_In in Hi. rewrite Forall_forall in Hall.
  specialize (Hall i Hi). unfold waits_for, init_ok in *.
  destruct (stage i); try discriminate. tauto.
Qed.

Lemma step_sound (e : Event) (w w' : World) :
  sound w → step e w = Some w' → sound w'.
Proof.
  intros Hs Hstep. pose proof Hs as [H1 H2 H3 H4].
  destruct e as [p err|p err|c|c err|c reason|d|p]; simpl in Hstep.
  - destruct (inits w !! p) as [i|] eqn:Hi; simpl in Hstep; [|discriminate].
    destruct (stage i) eqn:Hst; try discriminate.
    destruct err as [reason|]; injection Hstep as <-.
    + by apply init_failed_sound.
    + constructor; simpl.
      * intros c [= <-]. lia.
      * intros q Hq. rewrite length_insert. by apply H2.
      * done.
      * apply Forall_insert; [by apply create_client_ok | done].
  - destruct (inits w !! p) as [i|] eqn:Hi; simpl in Hstep; [|discriminate].
    destruct (stage i) eqn:Hst; try discriminate.
    destruct err as [reason|].
    + injection Hstep as <-. by apply init_failed_sound.
    + destruct (client (fields w)) as [c|] eqn:Hc; [|discriminate].
      injection Hstep as <-. constructor; simpl.
      * exact (sound_client w Hs).
      * intros q Hq. rewrite length_insert. by apply (sound_promise w Hs).
      * exact (sound_ready w Hs).
      * apply Forall_insert; [exact (sound_inits w Hs)|].
        unfold init_ok, has_client. simpl. rewrite Hc.
        repeat split; [by apply (sound_client w Hs) | lia].
  - destruct (existsb (waits_for c) (inits w)) eqn:Hex; injection Hstep as <-;
      [|exact Hs].
    pose proof (waits_for_found c _ _ _ _ Hex H4) as Hcl.
    constructor;
      [exact H1
      | simpl; intros q Hq; rewrite length_fmap; by apply H2
      | intros _; exact Hcl | ].
    simpl. apply Forall_fmap. eapply Forall_impl; [exact H4|].
    intros i Hi. unfold has_client in *. simpl.
    unfold ready_one, init_ok in *. simpl.
    destruct (stage i) eqn:Hst; rewrite ?Hst; try done.
    destruct (client (fields w)) as [v|]; [|discriminate].
    case_bool_decide; simpl; rewrite ?Hst; [|done].
    destruct Hi as (-> & _). done.
  - injection Hstep as <-. constructor; [exact H1 | done | done | ].
    simpl. apply Forall_fmap. eapply Forall_impl; [exact H4|].
    intros i Hi. unfold auth_failed_one, waits_for, init_ok in *. simpl.
    destruct (stage i) eqn:Hst; rewrite ?Hst; try done.
    case_bool_decide; simpl; rewrite ?Hst; [|done].
    destruct Hi as (-> & _). done.
  - injection Hstep as <-. by apply reset_sound.
  - case_bool_decide as Hd; [|discriminate]. injection Hstep as <-.
    constructor; [exact H1 | exact H2 | exact H3 | ]. simpl.
    eapply Forall_impl; [exact H4|].
    intros i. apply init_ok_mono; [done | lia | lia].
  - destruct (inits w !! p) as [i|] eqn:Hi; simpl in Hstep; [|discriminate].
    destruct (stage i) eqn:Hst; try discriminate.
    case_bool_decide as Hd; [|discriminate]. injection Hstep as <-.
    by apply init_failed_sound.
Qed.

Lemma act_sound (a : Action) (w w' : World) :
  sound w → act a w = Some w' → sound w'.
Proof.
  intros Hs. destruct a as [|x|x|e]; simpl.
  - intros [= <-]. by apply connect_sound.
  - intros [= <-]. by apply destroy_sound.
  - intros [= <-]. by apply logout_sound.
  - by apply step_sound.
Qed.

Lemma acts_sound (l : list Action) (w w' : World) :
  sound w → acts l w = Some w' → sound w'.
Proof.
  revert w; induction l as [|a l IH]; intros w Hs; simpl.
  - by intros [= <-].
  - destruct (act a w) as [w1|] eqn:E; simpl; [|discriminate].
    apply IH. exact (act_sound a w w1 Hs E).
Qed.

End Lifecycle.

Section Finished.
Import Service Lifecycle.

Lemma start_sound (m : bool) : sound (start m).
Proof. constructor; simpl; done. Qed.

(** ** Finished attempts *)

Lemma act_keeps_finished (a : Action) (w w' : World) (p : nat) (i : Init) :
  inits w !! p = Some i → stage i = Finished →
  act a w = Some w' → inits w' !! p = Some i.
Proof.
  intros Hi Hst. destruct a as [|x|x|e]; simpl.
  - intros [= <-]. unfold connect.
    destruct (initializationPromise (fields w)); [done|].
    unfold _initialize. destruct (mongoReady w); simpl;
      by apply lookup_app_l_Some.
  - intros [= <-]. unfold destroy.
    destruct (isInitialized (fields w)), (client (fields w)); try done.
    by destruct x.
  - intros [= <-]. unfold logout.
    destruct (isInitialized (fields w)), (client (fields w)); try done.
    by destruct x.
  - destruct e as [q err|q err|c|c err|c reason|d|q]; simpl.
    + destruct (inits w !! q) as [j|] eqn:Hj; simpl; [|discriminate].
      destruct (stage j) eqn:Hsj; try discriminate.
      assert (q ≠ p) as Hne by (intros ->; congruence).
      destruct err; intros [= <-]; simpl; by rewrite list_lookup_insert_ne.
    + destruct (inits w !! q) as [j|] eqn:Hj; simpl; [|discriminate].
      destruct (stage j) eqn:Hsj; try discriminate.
      assert (q ≠ p) as Hne by (intros ->; congruence).
      destruct err.
      * intros [= <-]; simpl; by rewrite list_lookup_insert_ne.
      * destruct (client (fields w)); [|discriminate].
        intros [= <-]; simpl; by rewrite list_lookup_insert_ne.
    + destruct (existsb (waits_for c) (inits w)); intros [= <-]; [|done].
      simpl. rewrite list_lookup_fmap, Hi. simpl.
      unfold ready_one. by rewrite Hst.
    + intros [= <-]. simpl. rewrite list_lookup_fmap, Hi. simpl.
      unfold auth_failed_one, waits_for. by rewrite Hst.
    + by intros [= <-].
    + case_bool_decide; [|discriminate]. by intros [= <-].
    + destruct (inits w !! q) as [j|] eqn:Hj; simpl; [|discriminate].
      destruct (stage j) eqn:Hsj; try discriminate.
      assert (q ≠ p) as Hne by (intros ->; congruence).
      case_bool_decide; [|discriminate].
      intros [= <-]; simpl; by rewrite list_lookup_insert_ne.
Qed.

End Finished.

(** X11: whenever the service is initialized, it has a client, and that
    client is one it created: in every world reached from a new process
    by calls of [connect], [destroy] and [logout] and by events of the
    environment, [isInitialized] implies that [client] is set.  The
    [!this.client] half of the guards of [sendMessage], [logout] and
    [destroy] therefore never decides on its own. *)
Theorem initialized_has_client
  (m : bool) (l : list Lifecycle.Action) (w : Service.World) :
  Lifecycle.acts l (Lifecycle.start m) = Some w →
  Service.isInitialized (Service.fields w) = true →
  ∃ c, Service.client (Service.fields w) = Some c ∧ (c < Service.clients w)%nat.
Proof.
  intros Hrun Hi.
  pose proof (acts_sound l _ w (start_sound m) Hrun) as [H1 _ H3 _].
  specialize (H3 Hi). unfold Lifecycle.has_client in H3.
  destruct (Service.client (Service.fields w)) as [c|]; [|discriminate].
  exists c. split; [reflexivity | by apply H1].
Qed.

Lemma initialized_has_client_witness :
  ∃ c, Service.client (Service.fields Lifecycle.brought_up) = Some c ∧
       (c < Service.clients Lifecycle.brought_up)%nat.
Proof.
  apply (initialized_has_client false Lifecycle.bring_up Lifecycle.brought_up);
    vm_compute; reflexivity.
Defined.

(** X12: the promise of an attempt tells its state.  In every world
    reached from a new process, an attempt to initialize is finished
    exactly when its promise is settled; while it connects to MongoDB,
    initializes its client or waits for [ready], its promise is pending. *)
Theorem attempt_settled_iff_finished
  (m : bool) (l : list Lifecycle.Action) (w : Service.World) (p : nat)
  (i : Service.Init) :
  Lifecycle.acts l (Lifecycle.start m) = Some w →
  Service.inits w !! p = Some i →
  (settled (Service.result i) = true ↔ Service.stage i = Service.Finished).
Proof.
  intros Hrun Hi.
  pose proof (acts_sound l _ w (start_sound m) Hrun) as [_ _ _ H4].
  pose proof (Forall_lookup_1 _ _ _ _ H4 Hi) as Hok.
  unfold Lifecycle.init_ok in Hok.
  destruct (Service.stage i); split; try done; intros Hs.
  - by rewrite Hok in Hs.
  - destruct Hok as [Hok _]. by rewrite Hok in Hs.
  - destruct Hok as [Hok _]. by rewrite Hok in Hs.
Qed.

Lemma attempt_settled_iff_finished_witness :
  settled (Service.result (Service.mkInit Service.Finished (Fulfilled 0%nat)))
    = true
  ↔ Service.stage (Service.mkInit Service.Finished (Fulfilled 0%nat))
    = Service.Finished.
Proof.
  apply (attempt_settled_iff_finished false Lifecycle.bring_up
           Lifecycle.brought_up 0);
    vm_compute; reflexivity.
Defined.

(** X13: the wait for [ready] is never longer than 120000 ms.  In every
    world reached from a new process, the deadline of an attempt that
    waits for [ready] is at most 120000 ms ahead, and once 120000 ms have
    passed its timer can fire and rejects the promise of the attempt with
    the time-out error. *)
Theorem waiting_attempt_times_out
  (m : bool) (l : list Lifecycle.Action) (w : Service.World) (p c : nat)
  (d : Z) (r : Promise nat) :
  Lifecycle.acts l (Lifecycle.start m) = Some w →
  Service.inits w !! p = Some (Service.mkInit (Service.AwaitReady c d) r) →
  d ≤ Service.now w + 120000 ∧
  ∃ w1 w2,
    Service.step (Service.EvAdvance 120000) w = Some w1 ∧
    Service.step (Service.EvInitTimeout p) w1 = Some w2 ∧
    Service.result <$> Service.inits w2 !! p = Some (Rejected timeout_error).
Proof.
  intros Hrun Hi.
  pose proof (acts_sound l _ w (start_sound m) Hrun) as [_ _ _ H4].
  pose proof (Forall_lookup_1 _ _ _ _ H4 Hi) as Hok.
  unfold Lifecycle.init_ok in Hok. simpl in Hok.
  destruct Hok as (-> & _ & _ & Hd). unfold Service.initTimeout in Hd.
  split; [exact Hd|].
  eexists _, _. split; [reflexivity|].
  split.
  - apply (timer_fires _ p c d Pending); [exact Hi | simpl; lia].
  - by erewrite init_failed_result.
Qed.

Lemma waiting_attempt_times_out_witness :
  120000 ≤ Service.now Lifecycle.held_up + 120000 ∧
  ∃ w1 w2,
    Service.step (Service.EvAdvance 120000) Lifecycle.held_up = Some w1 ∧
    Service.step (Service.EvInitTimeout 0) w1 = Some w2 ∧
    Service.result <$> Service.inits w2 !! 0%nat = Some (Rejected timeout_error).
Proof.
  apply (waiting_attempt_times_out false (take 4 Lifecycle.bring_up)
           Lifecycle.held_up 0 0 120000 Pending);
    vm_compute; reflexivity.
Defined.

(** X14: a finished attempt is never settled again.  Whatever is called
    and whatever happens afterwards, the promise of an attempt that has
    finished, fulfilled or rejected, stays as it is. *)
Theorem finished_attempt_kept
  (l : list Lifecycle.Action) (w w' : Service.World) (p : nat)
  (i : Service.Init) :
  Service.inits w !! p = Some i →
  Service.stage i = Service.Finished →
  Lifecycle.acts l w = Some w' →
  Service.inits w' !! p = Some i.
Proof.
  revert w; induction l as [|a l IH]; intros w Hi Hst; simpl.
  - by intros [= <-].
  - destruct (Lifecycle.act a w) as [w1|] eqn:E; simpl; [|discriminate].
    apply IH; [|exact Hst]. exact (act_keeps_finished a w w1 p i Hi Hst E).
Qed.

Lemma finished_attempt_kept_witness :
  Service.inits
    (default Service.init
       (Lifecycle.acts
          [Lifecycle.Env (Service.EvDisconnected 0 "NAVIGATION");
           Lifecycle.Connect; Lifecycle.Env (Service.EvReady 0)]
          Lifecycle.brought_up)) !! 0%nat
  = Some (Service.mkInit Service.Finished (Fulfilled 0%nat)).
Proof.
  apply (finished_attempt_kept
           [Lifecycle.Env (Service.EvDisconnected 0 "NAVIGATION");
            Lifecycle.Connect; Lifecycle.Env (Service.EvReady 0)]
           Lifecycle.brought_up);
    vm_compute; reflexivity.
Defined.

Section Signals.
Import Service Lifecycle.


End Signals.

Section Quiet.
Import Service Lifecycle.




End Quiet.



(** X16: an authentication failure ends the wait with an error.  If an
    attempt waits for [ready] of client [c], then when [c] announces
    [auth_failure] with [err] the promise of the attempt is rejected with
    status 500 and the message "WhatsApp client initialization failed:
    Authentication failed: [err]", the service is reset, the timer of the
    wait can no longer fire, and the next [connect()] starts a new
    attempt. *)
Theorem auth_failure_rejects_attempt
  (w : Service.World) (p c : nat) (d : Z) (err : string) :
  Service.inits w !! p = Some (Service.mkInit (Service.AwaitReady c d) Pending) →
  ∃ w1,
    Service.step (Service.EvAuthFailure c err) w = Some w1 ∧
    Service.inits w1 !! p
      = Some (Service.mkInit Service.Finished
                (Rejected (Lifecycle.auth_error err))) ∧
    Service.isInitialized (Service.fields w1) = false ∧
    Service.initializationPromise (Service.fields w1) = None ∧
    Service.step (Service.EvInitTimeout p) w1 = None ∧
    (Service.connect w1).1 = length (Service.inits w1) ∧
    length (Service.inits (Service.connect w1).2)
      = S (length (Service.inits w1)).
Proof.
  intros Hi. eexists. split; [reflexivity|]. simpl.
  assert (Hnew : (Service.auth_failed_one c err <$> Service.inits w) !! p
                 = Some (Service.mkInit Service.Finished
                           (Rejected (Lifecycle.auth_error err)))).
  { rewrite list_lookup_fmap, Hi. simpl.
    unfold Service.auth_failed_one, Service.waits_for. simpl.
    by rewrite bool_decide_eq_true_2. }
  split; [exact Hnew|]. split; [reflexivity|]. split; [reflexivity|].
  split; [by rewrite Hnew|].
  match goal with
  | |- (Service.connect ?w1).1 = _ ∧ _ =>
      destruct (connect_idle w1 eq_refl) as (H1 & _ & H3 & _)
  end.
  split; [exact H1 | exact H3].
Qed.

Lemma auth_failure_rejects_attempt_witness :
  ∃ w1,
    Service.step (Service.EvAuthFailure 0 "session expired") Lifecycle.held_up
      = Some w1 ∧
    Service.inits w1 !! 0%nat
      = Some (Service.mkInit Service.Finished
                (Rejected (Lifecycle.auth_error "session expired"))) ∧
    Service.isInitialized (Service.fields w1) = false ∧
    Service.initializationPromise (Service.fields w1) = None ∧
    Service.step (Service.EvInitTimeout 0) w1 = None ∧
    (Service.connect w1).1 = length (Service.inits w1) ∧
    length (Service.inits (Service.connect w1).2)
      = S (length (Service.inits w1)).
Proof.
  apply (auth_failure_rejects_attempt Lifecycle.held_up 0 0 120000
           "session expired").
  vm_compute; reflexivity.
Defined.

(** X17: a disconnection resets the service and nothing else: the client
    object stays, no promise is settled and no collaborator is called.
    The next [connect()], with MongoDB connected, then builds a second
    client, which replaces the first in [this.client]; the first one is
    not destroyed. *)
Theorem reconnect_after_disconnect
  (w : Service.World) (c : nat) (reason : string) :
  Service.mongoReady w = true →
  ∃ w1,
    Service.step (Service.EvDisconnected c reason) w = Some w1 ∧
    Service.fields w1
      = Service.mkFields (Service.client (Service.fields w)) false None ∧
    Service.inits w1 = Service.inits w ∧
    Service.effects w1 = Service.effects w ∧
    Service.client (Service.fields (Service.connect w1).2)
      = Some (Service.clients w) ∧
    Service.clients (Service.connect w1).2 = S (Service.clients w) ∧
    Service.effects (Service.connect w1).2
      = Service.ClientInitialize (Service.clients w)
        :: Service.NewClient (Service.clients w) :: Service.effects w.
Proof.
  intros Hm. eexists. split; [reflexivity|].
  unfold Service.connect, Service._initialize. simpl. rewrite Hm. simpl.
  done.
Qed.

Lemma reconnect_after_disconnect_witness :
  ∃ w1,
    Service.step (Service.EvDisconnected 0 "NAVIGATION") Session.ready = Some w1 ∧
    Service.fields w1
      = Service.mkFields (Service.client (Service.fields Session.ready)) false None ∧
    Service.inits w1 = Service.inits Session.ready ∧
    Service.effects w1 = Service.effects Session.ready ∧
    Service.client (Service.fields (Service.connect w1).2)
      = Some (Service.clients Session.ready) ∧
    Service.clients (Service.connect w1).2 = S (Service.clients Session.ready) ∧
    Service.effects (Service.connect w1).2
      = Service.ClientInitialize (Service.clients Session.ready)
        :: Service.NewClient (Service.clients Session.ready)
        :: Service.effects Session.ready.
Proof.
  apply (reconnect_after_disconnect Session.ready 0 "NAVIGATION").
  reflexivity.
Defined.

Section Logout.
Import Service.



End Logout.



(** X19: a failed tear-down changes nothing but can be repeated.  On an
    initialized service, when [client.destroy()] throws [reason],
    [destroy()] throws an error of status 500 with the message "Failed to
    destroy client: [reason]" and leaves the three fields of the service
    as they were, so a second [destroy()] calls the client again and, if
    that call succeeds, returns [true]; [logout()] fails in the same way
    with "Failed to logout: [reason]". *)
Theorem failed_teardown_keeps_state
  (w : Service.World) (c : nat) (reason : string) :
  Service.isInitialized (Service.fields w) = true →
  Service.client (Service.fields w) = Some c →
  Service.destroy (Service.Throws reason) w
    = (Service.Thrown (mkAppError ("Failed to destroy client: " +:+ reason) 500),
       Service.emit (Service.ClientDestroy c) w) ∧
  Service.fields (Service.destroy (Service.Throws reason) w).2
    = Service.fields w ∧
  (Service.destroy Service.Done
     (Service.destroy (Service.Throws reason) w).2).1
    = Service.Returned true ∧
  Service.logout (Service.Throws reason) w
    = (Service.Thrown (mkAppError ("Failed to logout: " +:+ reason) 500),
       Service.emit (Service.ClientLogout c) w) ∧
  Service.fields (Service.logout (Service.Throws reason) w).2
    = Service.fields w.
Proof.
  intros Hi Hc. unfold Service.destroy, Service.logout. rewrite Hi, Hc. simpl.
  rewrite Hi, Hc. done.
Qed.

Lemma failed_teardown_keeps_state_witness :
  Service.destroy (Service.Throws "Target closed") Session.ready
    = (Service.Thrown
         (mkAppError ("Failed to destroy client: " +:+ "Target closed") 500),
       Service.emit (Service.ClientDestroy 0) Session.ready) ∧
  Service.fields (Service.destroy (Service.Throws "Target closed") Session.ready).2
    = Service.fields Session.ready ∧
  (Service.destroy Service.Done
     (Service.destroy (Service.Throws "Target closed") Session.ready).2).1
    = Service.Returned true ∧
  Service.logout (Service.Throws "Target closed") Session.ready
    = (Service.Thrown
         (mkAppError ("Failed to logout: " +:+ "Target closed") 500),
       Service.emit (Service.ClientLogout 0) Session.ready) ∧
  Service.fields (Service.logout (Service.Throws "Target closed") Session.ready).2
    = Service.fields Session.ready.
Proof.
  apply (failed_teardown_keeps_state Session.ready 0 "Target closed");
    reflexivity.
Defined.

(** * The error handler and the other routes *)

Section Errors.
Import Routes Api.

Lemma status_is_status_of_code (e : AppError) :
  status e = status_of_code (statusCode e).
Proof. by destruct e. Qed.

(** The classification of every three-digit code, by running the
    constructor on each. *)
Lemma status_table :
  forallb
    (λ n, let c := 100 + Z.of_nat n in
          bool_decide
            (status_of_code c
             = if bool_decide (400 ≤ c ≤ 499) then "fail" else "error"))
    (seq 0 900)
  = true.
Proof. vm_compute. reflexivity. Qed.

Lemma status_of_three_digits (c : Z) :
  100 ≤ c ≤ 999 →
  status_of_code c = if bool_decide (400 ≤ c ≤ 499) then "fail" else "error".
Proof.
  intros Hc. pose proof status_table as H.
  rewrite forallb_forall in H.
  assert (In (Z.to_nat (c - 100)) (seq 0 900)) as Hin by (apply in_seq; lia).
  specialize (H _ Hin). cbv beta zeta in H.
  assert (100 + Z.of_nat (Z.to_nat (c - 100)) = c) as E by lia.
  rewrite E in H. by apply bool_decide_eq_true in H.
Qed.

Lemma js_or_idem (v w : JsVal) : js_or (js_or v w) w = js_or v w.
Proof.
  unfold js_or. destruct (truthy v) eqn:E; [by rewrite E|].
  by destruct (truthy w).
Qed.

End Errors.

(** X20: the answer to an [AppError].  For every [AppError] with a
    three-digit status code, the error handler answers with that code,
    with the message of the error, and with the status [fail] exactly for
    the codes 400 to 499 and [error] for all others. *)
Theorem app_error_answer (e : AppError) :
  100 ≤ statusCode e ≤ 999 →
  Routes.errorHandler e
  = Routes.mkResponse (statusCode e)
      (Routes.ErrorJson
         (if bool_decide (400 ≤ statusCode e ≤ 499) then "fail" else "error")
         (message e)).
Proof.
  intros Hc. unfold Routes.errorHandler.
  rewrite status_is_status_of_code, (status_of_three_digits _ Hc).
  destruct (statusCode e =? 0) eqn:E; [lia|].
  destruct (bool_decide (400 ≤ statusCode e ≤ 499)); reflexivity.
Qed.

Lemma app_error_answer_witness :
  Routes.errorHandler (mkAppError "WhatsApp client is not initialized" 400)
  = Routes.mkResponse
      (statusCode (mkAppError "WhatsApp client is not initialized" 400))
      (Routes.ErrorJson
         (if bool_decide
               (400 ≤ statusCode (mkAppError "WhatsApp client is not initialized"
                                     400) ≤ 499)
          then "fail" else "error")
         (message (mkAppError "WhatsApp client is not initialized" 400))).
Proof.
  apply (app_error_answer (mkAppError "WhatsApp client is not initialized" 400)).
  simpl. lia.
Defined.

(** X21: the error handler fills in only what an error lacks.  For
    every error object the answer carries its [statusCode] if that is
    truthy and 500 otherwise, its [status] if that is truthy and [error]
    otherwise, and its message.  So the error of the 404 handler, which
    has a status code and no status, is answered with code 404 and status
    [error], whereas an [AppError] of code 404 is labelled [fail]; an
    error with neither field is answered with 500 and [error]; and an
    [AppError] with a three-digit code is answered with its code, its
    message, and [fail] exactly for 400 to 499. *)
Theorem error_handler_fills_missing
  (err : Api.ErrorObject) (url msg : string) (e : AppError) :
  100 ≤ statusCode e ≤ 999 →
  Api.handle err
    = Api.mkErrorReply
        (if truthy (Api.err_statusCode err) then Api.err_statusCode err
         else JNum 500)
        (if truthy (Api.err_status err) then Api.err_status err
         else JStr "error")
        (Api.err_message err) ∧
  Api.handle (Api.not_found url)
    = Api.mkErrorReply (JNum 404) (JStr "error")
        ("Cannot find " +:+ url +:+ " on this server!") ∧
  Api.handle (Api.thrown (mkAppError msg 404))
    = Api.mkErrorReply (JNum 404) (JStr "fail") msg ∧
  Api.handle (Api.mkErrorObject msg JUndefined JUndefined)
    = Api.mkErrorReply (JNum 500) (JStr "error") msg ∧
  Api.handle (Api.thrown e)
    = Api.mkErrorReply (JNum (statusCode e))
        (JStr (if bool_decide (400 ≤ statusCode e ≤ 499) then "fail" else "error"))
        (message e).
Proof.
  intros Hc.
  split; [reflexivity|].
  split; [reflexivity|]. split; [reflexivity|]. split; [reflexivity|].
  unfold Api.handle, Api.thrown, js_or. simpl.
  rewrite status_is_status_of_code, (status_of_three_digits _ Hc).
  destruct (statusCode e =? 0) eqn:E; [lia|]. simpl.
  destruct (bool_decide (400 ≤ statusCode e ≤ 499)); reflexivity.
Qed.

Lemma error_handler_fills_missing_witness :
  Api.handle (Api.mkErrorObject "request entity too large" (JNum 413) (JNum 413))
    = Api.mkErrorReply
        (if truthy (Api.err_statusCode
                      (Api.mkErrorObject "request entity too large" (JNum 413)
                                         (JNum 413)))
         then Api.err_statusCode
                (Api.mkErrorObject "request entity too large" (JNum 413)
                                   (JNum 413))
         else JNum 500)
        (if truthy (Api.err_status
                      (Api.mkErrorObject "request entity too large" (JNum 413)
                                         (JNum 413)))
         then Api.err_status
                (Api.mkErrorObject "request entity too large" (JNum 413)
                                   (JNum 413))
         else JStr "error")
        (Api.err_message
           (Api.mkErrorObject "request entity too large" (JNum 413) (JNum 413))) ∧
  Api.handle (Api.not_found "/api/whatsapp/stats")
    = Api.mkErrorReply (JNum 404) (JStr "error")
        ("Cannot find " +:+ "/api/whatsapp/stats" +:+ " on this server!") ∧
  Api.handle (Api.thrown (mkAppError "Unexpected token" 404))
    = Api.mkErrorReply (JNum 404) (JStr "fail") "Unexpected token" ∧
  Api.handle (Api.mkErrorObject "Unexpected token" JUndefined JUndefined)
    = Api.mkErrorReply (JNum 500) (JStr "error") "Unexpected token" ∧
  Api.handle (Api.thrown (mkAppError "Logout failed" 500))
    = Api.mkErrorReply (JNum (statusCode (mkAppError "Logout failed" 500)))
        (JStr (if bool_decide (400 ≤ statusCode (mkAppError "Logout failed" 500)
                                ≤ 499)
               then "fail" else "error"))
        (message (mkAppError "Logout failed" 500)).
Proof.
  apply (error_handler_fills_missing
           (Api.mkErrorObject "request entity too large" (JNum 413) (JNum 413))
           "/api/whatsapp/stats" "Unexpected token"
           (mkAppError "Logout failed" 500)).
  simpl. lia.
Defined.

(** X22: [POST /logout] answers 200 exactly when the service was
    initialized and the client logged out, 400 with "Not currently logged
    in to WhatsApp" exactly when the service was not initialized (and
    then nothing is called or changed), and, when the client throws
    [reason], 500 with status [error] and the message "Logout failed:
    Failed to logout: [reason]".  The queue is never touched. *)
Theorem logout_route_answers (x : Service.External) (a : Routes.App) :
  Routes.mq (Api.logout_route x a).2 = Routes.mq a ∧
  match Service.isInitialized (Service.fields (Routes.wa a)),
        Service.client (Service.fields (Routes.wa a)), x with
  | true, Some c, Service.Done =>
      Api.logout_route x a
      = (Api.Plain 200 true "Successfully logged out of WhatsApp",
         Routes.mkApp
           (Service.reset (Service.emit (Service.ClientLogout c) (Routes.wa a)))
           (Routes.mq a))
  | true, Some c, Service.Throws reason =>
      (Api.logout_route x a).1
      = Api.Failed
          (Routes.mkResponse 500
             (Routes.ErrorJson "error"
                ("Logout failed: Failed to logout: " +:+ reason)))
  | _, _, _ =>
      Api.logout_route x a
      = (Api.Plain 400 false "Not currently logged in to WhatsApp", a)
  end.
Proof.
  unfold Api.logout_route, Service.logout.
  destruct a as [w q]. simpl.
  destruct (Service.isInitialized (Service.fields w)),
           (Service.client (Service.fields w)) as [c|], x; simpl; done.
Qed.

(** X23: [POST /destroy] answers 200 whether or not there was anything
    to tear down: "Client destroyed successfully" exactly when the
    service was initialized and the client was destroyed, "Client was not
    initialized" exactly when it was not (and then nothing is called or
    changed); only a client that throws [reason] gives 500, with the
    message "Failed to destroy client: [reason]".  The queue is never
    touched. *)
Theorem destroy_route_answers (x : Service.External) (a : Routes.App) :
  Routes.mq (Api.destroy_route x a).2 = Routes.mq a ∧
  match Service.isInitialized (Service.fields (Routes.wa a)),
        Service.client (Service.fields (Routes.wa a)), x with
  | true, Some c, Service.Done =>
      Api.destroy_route x a
      = (Api.Plain 200 true "Client destroyed successfully",
         Routes.mkApp
           (Service.reset (Service.emit (Service.ClientDestroy c) (Routes.wa a)))
           (Routes.mq a))
  | true, Some c, Service.Throws reason =>
      (Api.destroy_route x a).1
      = Api.Failed
          (Routes.mkResponse 500
             (Routes.ErrorJson "error" ("Failed to destroy client: " +:+ reason)))
  | _, _, _ =>
      Api.destroy_route x a = (Api.Plain 200 true "Client was not initialized", a)
  end.
Proof.
  unfold Api.destroy_route, Service.destroy.
  destruct a as [w q]. simpl.
  destruct (Service.isInitialized (Service.fields w)),
           (Service.client (Service.fields w)) as [c|], x; simpl; done.
Qed.

(** X24: [DELETE /queue] reports the number of items that [GET /queue]
    showed as queued just before, leaves the service alone, and a
    [GET /queue] right after shows the same statistics with [queued] at
    0. *)
Theorem clear_route_then_stats (a : Routes.App) :
  (Api.clear_route a).1
    = Api.Plain 200 true
        ("Cleared " +:+ pretty (Queue.queued (Queue.getStats (Routes.mq a)))
         +:+ " messages from queue") ∧
  Routes.wa (Api.clear_route a).2 = Routes.wa a ∧
  Api.queue_route (Api.clear_route a).2
    = Api.WithStats 200
        (Queue.mkStats 0
           (Queue.sent (Queue.getStats (Routes.mq a)))
           (Queue.failed (Queue.getStats (Routes.mq a)))
           (Queue.total (Queue.getStats (Routes.mq a)))
           (Queue.stat_processing (Queue.getStats (Routes.mq a)))).
Proof. destruct a as [w q]. repeat split. Qed.

(** X25: a failed initialization reaches every request that waits for
    it.  When the attempt with promise [p] fails for [reason], a
    [POST /initialize] and a [POST /send] that wait for [p] are both
    answered with 500, status [error] and the message "WhatsApp client
    initialization failed: [reason]", and the [POST /send] leaves the
    application as it is: nothing is enqueued. *)
Theorem failed_initialization_answered
  (cfg : Queue.Config) (a : Routes.App) (p : nat) (i : Service.Init)
  (reason : string) (recipient priority : JsVal) (content : string)
  (now : Z) (rnd : string) :
  Service.inits (Routes.wa a) !! p = Some i →
  Api.initialize_finished p
    (Routes.mkApp (Service.init_failed p reason (Routes.wa a)) (Routes.mq a))
    = Some (Api.Failed (Api.init_failure reason)) ∧
  Routes.send_connected cfg (Routes.AwaitConnect recipient content priority p)
    now rnd
    (Routes.mkApp (Service.init_failed p reason (Routes.wa a)) (Routes.mq a))
    = Some (Routes.Responded (Api.init_failure reason),
            Routes.mkApp (Service.init_failed p reason (Routes.wa a))
                         (Routes.mq a)).
Proof.
  intros Hi.
  pose proof (init_failed_result p reason (Routes.wa a) i Hi) as Hr.
  unfold Api.initialize_finished, Routes.send_connected. simpl in *.
  rewrite Hr. simpl. done.
Qed.

Lemma failed_initialization_answered_witness :
  Api.initialize_finished 0
    (Routes.mkApp
       (Service.init_failed 0 "Client initialization timed out"
          (Routes.wa Api.held_up_app))
       (Routes.mq Api.held_up_app))
    = Some (Api.Failed (Api.init_failure "Client initialization timed out")) ∧
  Routes.send_connected Scenario.defaults
    (Routes.AwaitConnect (JStr "4915100000000@c.us") "*Alert*" (JStr "normal") 0)
    100 "k3j9x0a"
    (Routes.mkApp
       (Service.init_failed 0 "Client initialization timed out"
          (Routes.wa Api.held_up_app))
       (Routes.mq Api.held_up_app))
    = Some (Routes.Responded (Api.init_failure "Client initialization timed out"),
            Routes.mkApp
              (Service.init_failed 0 "Client initialization timed out"
                 (Routes.wa Api.held_up_app))
              (Routes.mq Api.held_up_app)).
Proof.
  apply (failed_initialization_answered Scenario.defaults Api.held_up_app 0
           (Service.mkInit (Service.AwaitReady 0 120000) Pending)).
  vm_compute; reflexivity.
Defined.

(** X26: what a valid [POST /send] enqueues.  With [message] and [title]
    truthy and the recorded initialization fulfilled on an initialized
    service, the handler starts nothing on the service, and when it
    resumes it adds exactly one item to the queue, whose recipient is
    [to] or else the admin number, whose content is the title between
    asterisks, an empty line and the message, and whose priority is the
    one given or else [normal]; it then waits for the promise of that
    item. *)
Theorem send_enqueues_composed_message
  (cfg : Queue.Config) (admin : JsVal) (b : Routes.Body) (a : Routes.App)
  (p v c : nat) (now : Z) (rnd : string) (r : nat) (q : Queue.State) :
  truthy (Routes.body_message b) = true →
  truthy (Routes.body_title b) = true →
  Service.initializationPromise (Service.fields (Routes.wa a)) = Some p →
  Service.inits (Routes.wa a) !! p
    = Some (Service.mkInit Service.Finished (Fulfilled v)) →
  Service.isInitialized (Service.fields (Routes.wa a)) = true →
  Service.client (Service.fields (Routes.wa a)) = Some c →
  Queue.add cfg (Api.options_of admin b) now rnd (Routes.mq a) = Some (r, q) →
  ∃ h,
    Routes.send_begin admin b a = (h, a) ∧
    Routes.send_connected cfg h now rnd a
      = Some (Routes.AwaitResult r, Routes.mkApp (Routes.wa a) q).
Proof.
  intros Hm Ht Hp Hi Hini Hc Hadd. eexists.
  unfold Routes.send_begin. rewrite Hm, Ht. simpl.
  rewrite (connect_in_flight _ p Hp). destruct a as [w qa]. simpl in *.
  split; [reflexivity|].
  unfold Routes.send_connected. simpl.
  rewrite Hi. simpl. unfold Routes.sendMessage. simpl. rewrite Hini, Hc.
  rewrite js_or_idem. unfold Api.options_of, Api.content_of in Hadd.
  simpl in Hadd. rewrite Hadd. reflexivity.
Qed.

Lemma send_enqueues_composed_message_witness :
  ∃ h,
    Routes.send_begin (JStr "4915100000000@c.us") alert ready_app
      = (h, ready_app) ∧
    Routes.send_connected Scenario.defaults h 100 "k3j9x0a" ready_app
      = Some (Routes.AwaitResult 0,
              Routes.mkApp (Routes.wa ready_app)
                (default Queue.init
                   (snd <$> Queue.add Scenario.defaults
                              (Api.options_of (JStr "4915100000000@c.us") alert)
                              100 "k3j9x0a" (Routes.mq ready_app)))).
Proof.
  apply (send_enqueues_composed_message Scenario.defaults
           (JStr "4915100000000@c.us") alert ready_app 0 0 0 100 "k3j9x0a");
    vm_compute; reflexivity.
Defined.

(** X27: [POST /send] on a session that is not initialized.  If the
    promise the handler waited for is fulfilled but the service is no
    longer initialized when the handler resumes, the request is answered
    with 400, status [fail] and "WhatsApp client is not initialized", and
    nothing is enqueued. *)
Theorem send_needs_initialized_service
  (cfg : Queue.Config) (a : Routes.App) (p v : nat)
  (recipient priority : JsVal) (content : string) (now : Z) (rnd : string) :
  Service.inits (Routes.wa a) !! p
    = Some (Service.mkInit Service.Finished (Fulfilled v)) →
  Service.isInitialized (Service.fields (Routes.wa a)) = false ∨
  Service.client (Service.fields (Routes.wa a)) = None →
  Routes.send_connected cfg (Routes.AwaitConnect recipient content priority p)
                        now rnd a
    = Some (Routes.Responded Api.not_initialized, a).
Proof.
  intros Hi Hg. unfold Routes.send_connected, Routes.sendMessage.
  rewrite Hi. simpl.
  destruct (Service.isInitialized (Service.fields (Routes.wa a))),
           (Service.client (Service.fields (Routes.wa a)));
    destruct Hg as [Hg|Hg]; try discriminate; reflexivity.
Qed.

Lemma send_needs_initialized_service_witness :
  Routes.send_connected Scenario.defaults
    (Routes.AwaitConnect (JStr "4915100000000@c.us") "*Alert*" (JStr "normal") 0)
    100 "k3j9x0a" Api.dropped_app
  = Some (Routes.Responded Api.not_initialized, Api.dropped_app).
Proof.
  apply (send_needs_initialized_service Scenario.defaults Api.dropped_app 0 0).
  - reflexivity.
  - left. reflexivity.
Defined.

(** X28: which bodies [POST /send] refuses.  The handler answers at once
    exactly when [message] or [title] is falsy, that is absent, [null],
    [false], 0 or the empty string, and the answer is then the 400 of
    the missing fields with the application unchanged; in every other
    case it goes on to [connect()] and leaves the queue as it is. *)
Theorem send_refuses_falsy_fields
  (admin : JsVal) (b : Routes.Body) (a : Routes.App) :
  if truthy (Routes.body_message b) && truthy (Routes.body_title b)
  then ∃ p, (Routes.send_begin admin b a).1
            = Routes.AwaitConnect (js_or (Routes.body_to b) admin)
                (Api.content_of b)
                (js_or (Routes.body_priority b) (JStr "normal")) p ∧
            p = (Service.connect (Routes.wa a)).1 ∧
            Routes.mq (Routes.send_begin admin b a).2 = Routes.mq a
  else Routes.send_begin admin b a = (Routes.Responded missing_fields, a).
Proof.
  unfold Routes.send_begin.
  destruct (truthy (Routes.body_message b)), (truthy (Routes.body_title b));
    simpl; try reflexivity.
  destruct (Service.connect (Routes.wa a)) as [p w]. by exists p.
Qed.

(** * The lifetime timer *)

(** X29: the lifetime timer resets a service that is not initialized.
    If the timer fires while [isInitialized] is false, nothing is sent or
    destroyed, but [isInitialized] and the initialization promise are
    reset all the same: an initialization in flight is no longer
    recorded, no attempt is settled, and the next [connect()] starts
    another attempt. *)
Theorem lifetime_expiry_when_not_initialized
  (cfg : Queue.Config) (admin : JsVal) (now : Z) (rnd : string)
  (a : Routes.App) :
  Service.isInitialized (Service.fields (Routes.wa a)) = false ∨
  Service.client (Service.fields (Routes.wa a)) = None →
  Api.lifetime_fired cfg admin now rnd a
    = Some (Api.Expired, Routes.mkApp (Service.reset (Routes.wa a)) (Routes.mq a)) ∧
  Service.inits (Service.reset (Routes.wa a)) = Service.inits (Routes.wa a) ∧
  Service.effects (Service.reset (Routes.wa a)) = Service.effects (Routes.wa a) ∧
  (Service.connect (Service.reset (Routes.wa a))).1
    = length (Service.inits (Routes.wa a)) ∧
  length (Service.inits (Service.connect (Service.reset (Routes.wa a))).2)
    = S (length (Service.inits (Routes.wa a))).
Proof.
  intros Hg. unfold Api.lifetime_fired.
  destruct (connect_idle (Service.reset (Routes.wa a)) eq_refl)
    as (H1 & _ & H3 & _).
  destruct (Service.isInitialized (Service.fields (Routes.wa a))),
           (Service.client (Service.fields (Routes.wa a)));
    destruct Hg as [Hg|Hg]; try discriminate; done.
Qed.

Lemma lifetime_expiry_when_not_initialized_witness :
  Api.lifetime_fired Scenario.defaults (JStr "4915100000000@c.us") 300000
      "k3j9x0a" Api.held_up_app
    = Some (Api.Expired,
            Routes.mkApp (Service.reset (Routes.wa Api.held_up_app))
                         (Routes.mq Api.held_up_app)) ∧
  Service.inits (Service.reset (Routes.wa Api.held_up_app))
    = Service.inits (Routes.wa Api.held_up_app) ∧
  Service.effects (Service.reset (Routes.wa Api.held_up_app))
    = Service.effects (Routes.wa Api.held_up_app) ∧
  (Service.connect (Service.reset (Routes.wa Api.held_up_app))).1
    = length (Service.inits (Routes.wa Api.held_up_app)) ∧
  length (Service.inits
            (Service.connect (Service.reset (Routes.wa Api.held_up_app))).2)
    = S (length (Service.inits (Routes.wa Api.held_up_app))).
Proof.
  apply (lifetime_expiry_when_not_initialized Scenario.defaults
           (JStr "4915100000000@c.us") 300000 "k3j9x0a" Api.held_up_app).
  left. reflexivity.
Defined.

(** X30: at the end of its lifetime the client is destroyed only after
    the notice to the admin was delivered.  When the callback of the
    timer resumes, the queue is as before; if the promise of the notice
    was rejected, nothing happens at all: the client is not destroyed and
    the service stays as it is; if it was fulfilled, [client.destroy()]
    is called on the current client, and the service is reset only when
    that call succeeds. *)
Theorem lifetime_destroys_after_notice
  (x : Service.External) (r : nat) (a a' : Routes.App) :
  Api.lifetime_noticed x (Api.AwaitNotice r) a = Some a' →
  Routes.mq a' = Routes.mq a ∧
  match Queue.caller_of (Routes.mq a) r,
        Service.client (Service.fields (Routes.wa a)) with
  | Some (Fulfilled _), Some c =>
      Service.effects (Routes.wa a')
        = Service.ClientDestroy c :: Service.effects (Routes.wa a) ∧
      Service.fields (Routes.wa a')
        = match x with
          | Service.Done => Service.mkFields (Some c) false None
          | Service.Throws _ => Service.fields (Routes.wa a)
          end
  | _, _ => a' = a
  end.
Proof.
  unfold Api.lifetime_noticed.
  destruct (Queue.caller_of (Routes.mq a) r) as [[ |v|e]|]; simpl;
    try discriminate.
  - destruct (Service.client (Service.fields (Routes.wa a))) as [c|] eqn:Hc.
    + destruct x; intros [= <-]; simpl; rewrite ?Hc; done.
    + by intros [= <-].
  - intros [= <-].
    by destruct (Service.client (Service.fields (Routes.wa a))).
Qed.

Lemma lifetime_destroys_after_notice_witness :
  Routes.mq Api.notice_failed.2 = Routes.mq Api.notice_failed.2 ∧
  match Queue.caller_of (Routes.mq Api.notice_failed.2) 0,
        Service.client (Service.fields (Routes.wa Api.notice_failed.2)) with
  | Some (Fulfilled _), Some c =>
      Service.effects (Routes.wa Api.notice_failed.2)
        = Service.ClientDestroy c
          :: Service.effects (Routes.wa Api.notice_failed.2) ∧
      Service.fields (Routes.wa Api.notice_failed.2)
        = match Service.Done with
          | Service.Done => Service.mkFields (Some c) false None
          | Service.Throws _ => Service.fields (Routes.wa Api.notice_failed.2)
          end
  | _, _ => Api.notice_failed.2 = Api.notice_failed.2
  end.
Proof.
  apply (lifetime_destroys_after_notice Service.Done 0 Api.notice_failed.2
           Api.notice_failed.2).
  vm_compute; reflexivity.
Defined.
